(** * SCRAM-SHA-256 credential hashes for PgBouncer

    A shallow embedding of [database/scripts/generate-pgbouncer-passwords.py]
    and the properties of its credential-hash derivation.

    Python values are modelled as follows.
    - [bytes] is [list byte].
    - [str] is a list of Unicode code points ([N]); a [str] may hold any code
      point below 0x110000, lone surrogates included.
    - [int] is [Z].
    - An exception is a value of [exn]; a call either returns or raises.
    - The operating system's random source and standard output form the
      [world] that effectful code threads through.

    The library primitives the script calls are modelled by the standards
    they implement: [hashlib.sha256] by FIPS 180-4, [hmac.new(...).digest()]
    by RFC 2104, [base64.b64encode] by RFC 4648, [str.encode('utf-8')] by
    the strict UTF-8 codec, and [hashlib.pbkdf2_hmac] by PBKDF2 of RFC 8018
    together with the argument checks of CPython's OpenSSL binding on a
    platform with a 64-bit C [long]: an iteration count that is not a C
    [long], or that exceeds [INT_MAX], and a password or salt longer than
    [INT_MAX] bytes raise [OverflowError]; a count below 1 raises
    [ValueError]. *)

From Stdlib Require Import ZArith NArith Ascii String List Bool Lia.
From Stdlib Require Import Strings.Byte.
From Stdlib Require Import DecimalString DecimalPos DecimalZ.
Import ListNotations.

Local Open Scope Z_scope.

(** ** Bytes and strings *)

Definition bytes := list byte.
Definition str := list N.

Definition Z_of_byte (b : byte) : Z := Z.of_N (Byte.to_N b).

Definition byte_of_Z (z : Z) : byte :=
  match Byte.of_N (Z.to_N (z mod 256)) with
  | Some b => b
  | None => x00
  end.

(** [b"..."] literals. *)
Definition blit (s : string) : bytes := list_byte_of_string s.

(** ["..."] literals of ASCII text. *)
Definition lit (s : string) : str := map N_of_ascii (list_ascii_of_string s).

Definition xor_byte (a b : byte) : byte :=
  byte_of_Z (Z.lxor (Z_of_byte a) (Z_of_byte b)).

Fixpoint xor_bytes (xs ys : bytes) : bytes :=
  match xs, ys with
  | x :: xs', y :: ys' => xor_byte x y :: xor_bytes xs' ys'
  | _, _ => []
  end.

(** ** SHA-256 (FIPS 180-4), the function behind [hashlib.sha256] *)

Module SHA256.

Definition w32 (x : Z) : Z := x mod 2 ^ 32.
Definition add32 (x y : Z) : Z := w32 (x + y).
Definition rotr (n x : Z) : Z :=
  Z.lor (Z.shiftr x n) (w32 (Z.shiftl x (32 - n))).
Definition shr (n x : Z) : Z := Z.shiftr x n.
Definition not32 (x : Z) : Z := Z.lxor x 0xffffffff.

Definition Ch (x y z : Z) : Z := Z.lxor (Z.land x y) (Z.land (not32 x) z).
Definition Maj (x y z : Z) : Z :=
  Z.lxor (Z.lxor (Z.land x y) (Z.land x z)) (Z.land y z).
Definition bsig0 (x : Z) : Z := Z.lxor (Z.lxor (rotr 2 x) (rotr 13 x)) (rotr 22 x).
Definition bsig1 (x : Z) : Z := Z.lxor (Z.lxor (rotr 6 x) (rotr 11 x)) (rotr 25 x).
Definition ssig0 (x : Z) : Z := Z.lxor (Z.lxor (rotr 7 x) (rotr 18 x)) (shr 3 x).
Definition ssig1 (x : Z) : Z := Z.lxor (Z.lxor (rotr 17 x) (rotr 19 x)) (shr 10 x).

(** The round constants, written as rows of eight 32-bit words in
    hexadecimal. *)
Definition hex_digit_value (c : ascii) : Z :=
  let n := Z.of_N (N_of_ascii c) in if n <? 58 then n - 48 else n - 87.

Fixpoint hex_words (s : list ascii) : list Z :=
  match s with
  | a :: b :: c :: d :: e :: f :: g :: h :: rest =>
      fold_left (fun acc x => 16 * acc + hex_digit_value x)
        [a; b; c; d; e; f; g; h] 0 :: hex_words rest
  | _ => []
  end.

Definition K : list Z :=
  Eval vm_compute in
    flat_map (fun row => hex_words (list_ascii_of_string row))
    ["428a2f9871374491b5c0fbcfe9b5dba53956c25b59f111f1923f82a4ab1c5ed5";
     "d807aa9812835b01243185be550c7dc372be5d7480deb1fe9bdc06a7c19bf174";
     "e49b69c1efbe47860fc19dc6240ca1cc2de92c6f4a7484aa5cb0a9dc76f988da";
     "983e5152a831c66db00327c8bf597fc7c6e00bf3d5a7914706ca635114292967";
     "27b70a852e1b21384d2c6dfc53380d13650a7354766a0abb81c2c92e92722c85";
     "a2bfe8a1a81a664bc24b8b70c76c51a3d192e819d6990624f40e3585106aa070";
     "19a4c1161e376c082748774c34b0bcb5391c0cb34ed8aa4a5b9cca4f682e6ff3";
     "748f82ee78a5636f84c878148cc7020890befffaa4506cebbef9a3f7c67178f2"]%string.

(** The eight working variables, and the chaining value, of one hash. *)
Record state := State {
  ha : Z; hb : Z; hc : Z; hd : Z; he : Z; hf : Z; hg : Z; hh : Z
}.

Definition init : state :=
  State 0x6a09e667 0xbb67ae85 0x3c6ef372 0xa54ff53a
        0x510e527f 0x9b05688c 0x1f83d9ab 0x5be0cd19.

(** Big-endian 32-bit words of a byte string; a short tail is zero-filled. *)
Fixpoint words (bs : bytes) : list Z :=
  match bs with
  | b0 :: b1 :: b2 :: b3 :: rest =>
      (Z.shiftl (Z_of_byte b0) 24 + Z.shiftl (Z_of_byte b1) 16
       + Z.shiftl (Z_of_byte b2) 8 + Z_of_byte b3) :: words rest
  | _ => []
  end.

Definition word_bytes (x : Z) : bytes :=
  [byte_of_Z (Z.shiftr x 24); byte_of_Z (Z.shiftr x 16);
   byte_of_Z (Z.shiftr x 8); byte_of_Z x].

(** Message schedule: [win] holds W(t-16) .. W(t-1). *)
Fixpoint expand (n : nat) (win : list Z) : list Z :=
  match n, win with
  | S n', w0 :: rest =>
      let wt := add32 (add32 (ssig1 (nth 13 rest 0)) (nth 8 rest 0))
                      (add32 (ssig0 (nth 0 rest 0)) w0) in
      wt :: expand n' (rest ++ [wt])
  | _, _ => []
  end.

Definition schedule (block : bytes) : list Z :=
  let m := words block in m ++ expand 48 m.

Definition round (s : state) (kw : Z * Z) : state :=
  let t1 := add32 (add32 (add32 (hh s) (bsig1 (he s)))
                         (add32 (Ch (he s) (hf s) (hg s)) (fst kw))) (snd kw) in
  let t2 := add32 (bsig0 (ha s)) (Maj (ha s) (hb s) (hc s)) in
  State (add32 t1 t2) (ha s) (hb s) (hc s) (add32 (hd s) t1) (he s) (hf s) (hg s).

Definition compress (h : state) (block : bytes) : state :=
  let s := fold_left round (combine K (schedule block)) h in
  State (add32 (ha h) (ha s)) (add32 (hb h) (hb s))
        (add32 (hc h) (hc s)) (add32 (hd h) (hd s))
        (add32 (he h) (he s)) (add32 (hf h) (hf s))
        (add32 (hg h) (hg s)) (add32 (hh h) (hh s)).

(** Padding: a one bit, zero bits up to 56 mod 64 bytes, the bit length
    as a 64-bit big-endian integer. *)
Definition pad (msg : bytes) : bytes :=
  let len := Z.of_nat (length msg) in
  let bits := (8 * len) mod 2 ^ 64 in
  msg ++ x80 :: repeat x00 (Z.to_nat ((55 - len) mod 64))
      ++ word_bytes (Z.shiftr bits 32) ++ word_bytes bits.

Fixpoint blocks (n : nat) (h : state) (bs : bytes) : state :=
  match n with
  | O => h
  | S n' => blocks n' (compress h (firstn 64 bs)) (skipn 64 bs)
  end.

Definition digest_of (s : state) : bytes :=
  word_bytes (ha s) ++ word_bytes (hb s) ++ word_bytes (hc s)
  ++ word_bytes (hd s) ++ word_bytes (he s) ++ word_bytes (hf s)
  ++ word_bytes (hg s) ++ word_bytes (hh s).

Definition sha256 (msg : bytes) : bytes :=
  let p := pad msg in
  digest_of (blocks (Nat.div (length p) 64) init p).

End SHA256.

(** [hashlib.sha256(data).digest()] *)
Definition hashlib_sha256 (data : bytes) : bytes := SHA256.sha256 data.

(** ** HMAC (RFC 2104) with SHA-256: [hmac.new(key, msg, hashlib.sha256).digest()] *)

Definition hmac_block_key (key : bytes) : bytes :=
  let k := if (64 <? length key)%nat then hashlib_sha256 key else key in
  k ++ repeat x00 (64 - length k).

Definition hmac_sha256 (key msg : bytes) : bytes :=
  let k := hmac_block_key key in
  let inner := hashlib_sha256 (map (xor_byte x36) k ++ msg) in
  hashlib_sha256 (map (xor_byte x5c) k ++ inner).

(** ** PBKDF2 (RFC 8018) with HMAC-SHA-256 and a 32-byte derived key *)

Inductive exn : Set :=
| UnicodeEncodeError
| UnicodeDecodeError
| ValueError
| OverflowError.

Inductive result (A : Type) : Type :=
| Ok (a : A)
| Raise (e : exn).
Arguments Ok {A} a.
Arguments Raise {A} e.

(** One step U_k = PRF(P, U_{k-1}), accumulated by exclusive or. *)
Definition pbkdf2_step (password : bytes) (tu : bytes * bytes) : bytes * bytes :=
  let u := hmac_sha256 password (snd tu) in (xor_bytes (fst tu) u, u).

Definition pbkdf2_block (password salt : bytes) (iterations : Z) : bytes :=
  let u1 := hmac_sha256 password (salt ++ SHA256.word_bytes 1) in
  fst (Z.iter (iterations - 1) (pbkdf2_step password) (u1, u1)).

(** The limits of the C types behind the library call. *)
Definition INT_MAX : Z := 2 ^ 31 - 1.
Definition LONG_MIN : Z := - 2 ^ 63.
Definition LONG_MAX : Z := 2 ^ 63 - 1.

(** [hashlib.pbkdf2_hmac('sha256', password, salt, iterations)]: the derived
    key length defaults to the digest size, so one block is produced. The
    count is first converted to a C [long]; then the lengths of the password
    and of the salt are checked, then the count, in this order. *)
Definition hashlib_pbkdf2_hmac_sha256
    (password salt : bytes) (iterations : Z) : result bytes :=
  if (iterations <? LONG_MIN) || (LONG_MAX <? iterations) then Raise OverflowError
  else if INT_MAX <? Z.of_nat (length password) then Raise OverflowError
  else if INT_MAX <? Z.of_nat (length salt) then Raise OverflowError
  else if iterations <? 1 then Raise ValueError
  else if INT_MAX <? iterations then Raise OverflowError
  else Ok (pbkdf2_block password salt iterations).

(** ** Base64 (RFC 4648, standard alphabet, padded): [base64.b64encode] *)

Definition b64_alphabet : bytes :=
  blit "ABCDEFGHIJKLMNOPQRSTUVWXYZabcdefghijklmnopqrstuvwxyz0123456789+/".

Definition b64_pad : byte := "="%byte.

Definition b64_char (i : Z) : byte := nth (Z.to_nat i) b64_alphabet b64_pad.

(** The 24-bit group of three input bytes. *)
Definition b64_group (a b c : byte) : Z :=
  Z.shiftl (Z_of_byte a) 16 + Z.shiftl (Z_of_byte b) 8 + Z_of_byte c.

Definition b64_sextet (n k : Z) : byte := b64_char (Z.land (Z.shiftr n k) 63).

Fixpoint b64encode (s : bytes) : bytes :=
  match s with
  | [] => []
  | [a] =>
      let n := b64_group a x00 x00 in
      [b64_sextet n 18; b64_sextet n 12; b64_pad; b64_pad]
  | [a; b] =>
      let n := b64_group a b x00 in
      [b64_sextet n 18; b64_sextet n 12; b64_sextet n 6; b64_pad]
  | a :: b :: c :: rest =>
      let n := b64_group a b c in
      b64_sextet n 18 :: b64_sextet n 12 :: b64_sextet n 6 :: b64_sextet n 0
        :: b64encode rest
  end.

(** ** Text codecs *)

(** [bytes.decode('ascii')] *)
Definition bytes_decode_ascii (bs : bytes) : result str :=
  if forallb (fun b => Z_of_byte b <? 128) bs
  then Ok (map Byte.to_N bs)
  else Raise UnicodeDecodeError.

(** UTF-8 of one code point; the strict codec refuses surrogates. *)
Definition utf8_code_point (cp : N) : option bytes :=
  let c := Z.of_N cp in
  let cont k := byte_of_Z (Z.lor 0x80 (Z.land (Z.shiftr c k) 0x3f)) in
  if c <? 0x80 then Some [byte_of_Z c]
  else if c <? 0x800 then Some [byte_of_Z (Z.lor 0xc0 (Z.shiftr c 6)); cont 0]
  else if (0xd800 <=? c) && (c <? 0xe000) then None
  else if c <? 0x10000 then
    Some [byte_of_Z (Z.lor 0xe0 (Z.shiftr c 12)); cont 6; cont 0]
  else if c <? 0x110000 then
    Some [byte_of_Z (Z.lor 0xf0 (Z.shiftr c 18)); cont 12; cont 6; cont 0]
  else None.

(** [str.encode('utf-8')] *)
Fixpoint str_encode_utf8 (s : str) : result bytes :=
  match s with
  | [] => Ok []
  | cp :: rest =>
      match utf8_code_point cp with
      | None => Raise UnicodeEncodeError
      | Some bs =>
          match str_encode_utf8 rest with
          | Ok tl => Ok (bs ++ tl)
          | Raise e => Raise e
          end
      end
  end.

(** [str(n)], as an f-string formats an [int]. *)
Definition int_str (n : Z) : str := lit (NilZero.string_of_int (Z.to_int n)).

(** ** The world: random source and standard output *)

Record world := World {
  entropy : nat -> byte;    (* the bytes the OS random source will deliver *)
  stdout : list str         (* the lines printed so far *)
}.

Definition M (A : Type) : Type := world -> result A * world.

Definition ret {A} (a : A) : M A := fun w => (Ok a, w).

Definition bind {A B} (m : M A) (k : A -> M B) : M B :=
  fun w => match m w with
           | (Ok a, w') => k a w'
           | (Raise e, w') => (Raise e, w')
           end.

Definition lift {A} (r : result A) : M A := fun w => (r, w).

Notation "x <- m ;; k" := (bind m (fun x => k))
  (at level 61, m at next level, right associativity).

(** [secrets.token_bytes(n)] takes the next [n] bytes of the random source. *)
Definition secrets_token_bytes (n : nat) : M bytes :=
  fun w => (Ok (map (entropy w) (seq 0 n)),
            World (fun i => entropy w (n + i)%nat) (stdout w)).

(** [print(line)] *)
Definition print (line : str) : M unit :=
  fun w => (Ok tt, World (entropy w) (stdout w ++ [line])).

Fixpoint for_each {A} (xs : list A) (body : A -> M unit) : M unit :=
  match xs with
  | [] => ret tt
  | x :: xs' => _ <- body x ;; for_each xs' body
  end.

(** ** [generate_scram_sha256_hash] *)

(** The local variables of [generate_scram_sha256_hash] at its [return]. *)
Record frame := Frame {
  salt_used : bytes;
  password_bytes : bytes;
  salted_password : bytes;
  client_key : bytes;
  stored_key : bytes;
  server_key : bytes;
  salt_b64 : str;
  stored_key_b64 : str;
  server_key_b64 : str
}.

Definition Client_Key : bytes := blit "Client Key".
Definition Server_Key : bytes := blit "Server Key".

Definition generate_scram_sha256_hash_frame
    (password : str) (salt : option bytes) (iterations : Z) : M frame :=
  salt <- match salt with
          | None => secrets_token_bytes 16
          | Some s => ret s
          end ;;
  password_bytes <- lift (str_encode_utf8 password) ;;
  salted_password <-
    lift (hashlib_pbkdf2_hmac_sha256 password_bytes salt iterations) ;;
  let client_key := hmac_sha256 salted_password Client_Key in
  let stored_key := hashlib_sha256 client_key in
  let server_key := hmac_sha256 salted_password Server_Key in
  salt_b64 <- lift (bytes_decode_ascii (b64encode salt)) ;;
  stored_key_b64 <- lift (bytes_decode_ascii (b64encode stored_key)) ;;
  server_key_b64 <- lift (bytes_decode_ascii (b64encode server_key)) ;;
  ret (Frame salt password_bytes salted_password client_key stored_key
             server_key salt_b64 stored_key_b64 server_key_b64).

(** The f-string of the [return] statement. *)
Definition scram_format (iterations : Z) (fr : frame) : str :=
  lit "SCRAM-SHA-256$" ++ int_str iterations ++ lit ":" ++ salt_b64 fr
    ++ lit "$" ++ stored_key_b64 fr ++ lit ":" ++ server_key_b64 fr.

Definition generate_scram_sha256_hash
    (password : str) (salt : option bytes) (iterations : Z) : M str :=
  fr <- generate_scram_sha256_hash_frame password salt iterations ;;
  ret (scram_format iterations fr).

(** ** [main] *)

(** The [users] dictionary, in insertion order. *)
Definition users : list (str * str) :=
  [(lit "app_readwrite", lit "secure_app_password_2024");
   (lit "app_readonly", lit "secure_readonly_password_2024");
   (lit "pgbouncer_admin", lit "secure_pgbouncer_admin_2024");
   (lit "pgbouncer_monitor", lit "secure_pgbouncer_monitor_2024")].

(** The double quote character, and the f-string that prints one user. *)
Definition dquote : str := [34%N].

Definition credential_line (username hash_value : str) : str :=
  dquote ++ username ++ dquote ++ lit " " ++ dquote ++ hash_value ++ dquote.

Definition header : list str :=
  [lit "# PgBouncer User Authentication File";
   lit "# Generated SCRAM-SHA-256 hashes for secure authentication";
   lit "# Format: " ++ dquote ++ lit "username" ++ dquote ++ lit " " ++ dquote
     ++ lit "SCRAM-SHA-256$iterations:salt$storedkey:serverkey" ++ dquote;
   lit ""].

Definition footer : list str :=
  [lit "";
   lit "# SECURITY NOTES:";
   lit "# 1. Store this file with 600 permissions (readable only by owner)";
   lit "# 2. Keep passwords secure and rotate regularly";
   lit "# 3. Use environment variables for passwords in production";
   lit "# 4. Monitor authentication logs for security events"].

(** The defaults of the signature: [salt=None], [iterations=4096]. *)
Definition default_iterations : Z := 4096.

(** The body of the [for] loop, for one [(username, password)] item. *)
Definition print_user (up : str * str) : M unit :=
  hash_value <- generate_scram_sha256_hash (snd up) None default_iterations ;;
  print (credential_line (fst up) hash_value).

Definition main : M unit :=
  _ <- for_each header print ;;
  _ <- for_each users print_user ;;
  for_each footer print.

(** ** Vocabulary of the properties: reading a credential string back *)

(** RFC 4648 decoding, the inverse a consumer applies to a segment. *)
Fixpoint index_of (c : byte) (l : bytes) (i : Z) : option Z :=
  match l with
  | [] => None
  | x :: l' => if Byte.eqb c x then Some i else index_of c l' (i + 1)
  end.

Definition b64_index (c : byte) : option Z := index_of c b64_alphabet 0.

Definition b64_quad (c0 c1 c2 c3 : byte) : option bytes :=
  match b64_index c0, b64_index c1, b64_index c2, b64_index c3 with
  | Some i0, Some i1, Some i2, Some i3 =>
      let n := Z.shiftl i0 18 + Z.shiftl i1 12 + Z.shiftl i2 6 + i3 in
      Some [byte_of_Z (Z.shiftr n 16); byte_of_Z (Z.shiftr n 8); byte_of_Z n]
  | _, _, _, _ => None
  end.

(** The last quad of a text may end in one or two pad characters. *)
Definition b64_last_quad (c0 c1 c2 c3 : byte) : option bytes :=
  if Byte.eqb c3 b64_pad then
    if Byte.eqb c2 b64_pad then
      match b64_index c0, b64_index c1 with
      | Some i0, Some i1 =>
          Some [byte_of_Z (Z.shiftr (Z.shiftl i0 18 + Z.shiftl i1 12) 16)]
      | _, _ => None
      end
    else
      match b64_index c0, b64_index c1, b64_index c2 with
      | Some i0, Some i1, Some i2 =>
          let n := Z.shiftl i0 18 + Z.shiftl i1 12 + Z.shiftl i2 6 in
          Some [byte_of_Z (Z.shiftr n 16); byte_of_Z (Z.shiftr n 8)]
      | _, _, _ => None
      end
  else b64_quad c0 c1 c2 c3.

Fixpoint b64decode_bytes (s : bytes) : option bytes :=
  match s with
  | [] => Some []
  | c0 :: c1 :: c2 :: c3 :: rest =>
      match rest with
      | [] => b64_last_quad c0 c1 c2 c3
      | _ =>
          match b64_quad c0 c1 c2 c3, b64decode_bytes rest with
          | Some hd, Some tl => Some (hd ++ tl)
          | _, _ => None
          end
      end
  | _ => None
  end.

(** [str.encode('ascii')], as [base64.b64decode] applies it to a text. *)
Fixpoint str_encode_ascii (s : str) : option bytes :=
  match s with
  | [] => Some []
  | cp :: rest =>
      if (cp <? 128)%N then
        match Byte.of_N cp, str_encode_ascii rest with
        | Some b, Some tl => Some (b :: tl)
        | _, _ => None
        end
      else None
  end.

Definition b64decode (s : str) : option bytes :=
  match str_encode_ascii s with
  | Some bs => b64decode_bytes bs
  | None => None
  end.

(** Characters of the pattern. *)
Definition is_digit (c : N) : bool := ((48 <=? c) && (c <=? 57))%N.

Definition is_b64_char (c : N) : bool :=
  (((65 <=? c) && (c <=? 90)) || ((97 <=? c) && (c <=? 122))
   || ((48 <=? c) && (c <=? 57)) || (c =? 43) || (c =? 47))%N.

Definition is_pad (c : N) : bool := (c =? 61)%N.

(** [<digits>]: one or more decimal digits. *)
Definition is_digits (s : str) : bool :=
  negb (Nat.eqb (length s) 0) && forallb is_digit s.

(** [<base64>]: quads of alphabet characters, the last one padded with at
    most two [=]. *)
Fixpoint is_base64 (s : str) : bool :=
  match s with
  | [] => true
  | c0 :: c1 :: c2 :: c3 :: rest =>
      is_b64_char c0 && is_b64_char c1
      && match rest with
         | [] => (is_b64_char c2 && is_b64_char c3)
                 || (is_b64_char c2 && is_pad c3)
                 || (is_pad c2 && is_pad c3)
         | _ => is_b64_char c2 && is_b64_char c3 && is_base64 rest
         end
  | _ => false
  end.

Fixpoint strip_prefix (p s : str) : option str :=
  match p, s with
  | [], _ => Some s
  | a :: p', b :: s' => if (a =? b)%N then strip_prefix p' s' else None
  | _ :: _, [] => None
  end.

(** Split at the first occurrence of [c]. *)
Fixpoint split_at (c : N) (s : str) : option (str * str) :=
  match s with
  | [] => None
  | x :: s' =>
      if (x =? c)%N then Some ([], s')
      else match split_at c s' with
           | Some (l, r) => Some (x :: l, r)
           | None => None
           end
  end.

Definition dollar : N := 36.
Definition colon : N := 58.

(** The segments of a credential string. *)
Record segments := Segments {
  seg_iterations : str;
  seg_salt : str;
  seg_stored_key : str;
  seg_server_key : str
}.

Definition parse_scram (s : str) : option segments :=
  match strip_prefix (lit "SCRAM-SHA-256$") s with
  | None => None
  | Some r0 =>
      match split_at colon r0 with
      | None => None
      | Some (its, r1) =>
          match split_at dollar r1 with
          | None => None
          | Some (salt, r2) =>
              match split_at colon r2 with
              | None => None
              | Some (stored, server) => Some (Segments its salt stored server)
              end
          end
      end
  end.

(** The pattern [SCRAM-SHA-256$<digits>:<base64>$<base64>:<base64>], matched
    against the whole string. *)
Definition matches_scram_pattern (s : str) : bool :=
  match parse_scram s with
  | Some g =>
      is_digits (seg_iterations g) && is_base64 (seg_salt g)
      && is_base64 (seg_stored_key g) && is_base64 (seg_server_key g)
  | None => false
  end.

(** A printed line is the credential line of [username] when it reads
    ["<username>" "<hash>"] with a hash that matches the pattern. *)
Definition is_credential_line (username line : str) : bool :=
  match strip_prefix (dquote ++ username ++ dquote ++ lit " " ++ dquote) line with
  | Some r =>
      match split_at 34%N r with
      | Some (h, []) => matches_scram_pattern h
      | _ => false
      end
  | None => false
  end.

(** The characters the encoder writes. *)
Definition is_b64_text (c : N) : bool := is_b64_char c || is_pad c.

(** The text of an encoded segment: [base64.b64encode(x).decode('ascii')]. *)
Definition b64 (x : bytes) : str := map Byte.to_N (b64encode x).

(** A code point of a [str], and the ones UTF-8 can encode: the Unicode
    scalar values, that is every code point but the surrogates. *)
Definition is_code_point (c : N) : bool := (c <? 0x110000)%N.

Definition is_scalar_value (c : N) : bool :=
  ((c <? 0xd800) || ((0xe000 <=? c) && (c <? 0x110000)))%N.

(** The frame [generate_scram_sha256_hash] reaches from an encoded password,
    a salt and a count. *)
Definition derived_frame (pwb salt : bytes) (iterations : Z) : frame :=
  let sp := pbkdf2_block pwb salt iterations in
  let ck := hmac_sha256 sp Client_Key in
  let sk := hashlib_sha256 ck in
  let sv := hmac_sha256 sp Server_Key in
  Frame salt pwb sp ck sk sv (b64 salt) (b64 sk) (b64 sv).

(** The arguments the library call accepts: a password and a salt of at
    most [INT_MAX] bytes and a count from 1 to [INT_MAX]. *)
Definition accepted (password salt : bytes) (iterations : Z) : Prop :=
  Z.of_nat (length password) <= INT_MAX
  /\ Z.of_nat (length salt) <= INT_MAX
  /\ 1 <= iterations <= INT_MAX.

(** A password of the user table: one that UTF-8 encodes, to at most
    [INT_MAX] bytes. *)
Definition encodes_short (password : str) : bool :=
  match str_encode_utf8 password with
  | Ok pwb => Z.of_nat (length pwb) <=? INT_MAX
  | Raise _ => false
  end.

(** The example of the test descriptions: the empty password, sixteen zero
    bytes of salt, one iteration. *)
Definition zero_salt : bytes := repeat x00 16.

Definition example_hash : str :=
  lit "SCRAM-SHA-256$1:AAAAAAAAAAAAAAAAAAAAAA==$KSxxjXSRY0Rbd0QkkmKlov6+NJE+ECeO2WHcSxirDv4=:gKDb+DaE2XDcSu0ALp6KzFgStY1X2WDwYH59nzDS9uE=".

(** The lines [main] prints for a list of hashes, one per user. *)
Definition user_lines (us : list (str * str)) (hs : list str) : list str :=
  map (fun uh => credential_line (fst (fst uh)) (snd uh)) (combine us hs).

Definition no_quote (s : str) : bool := forallb (fun x => negb (x =? 34)%N) s.

(** The same example with two iterations. *)
Definition example_hash_2 : str :=
  lit "SCRAM-SHA-256$2:AAAAAAAAAAAAAAAAAAAAAA==$oAclgnj1XNfa0lzSP7wph289lJSgbIwAzxUgz/FHITg=:X8xez7dsd/20Mstr1yo7E+5QFEEkcnp2EP3n1z/Wi1U=".

(** The surrogate code points, which the strict UTF-8 codec refuses. *)
Definition is_surrogate (c : N) : bool := ((0xd800 <=? c) && (c <? 0xe000))%N.

(** Reading a credential string back: the count as a decimal integer, the
    salt by base64 decoding. *)
Definition int_of_str (s : str) : option Z :=
  option_map Z.of_int
    (NilZero.int_of_string (string_of_list_ascii (map ascii_of_N s))).

Definition read_parameters (out : str) : option (Z * bytes) :=
  match parse_scram out with
  | Some g =>
      match int_of_str (seg_iterations g), b64decode (seg_salt g) with
      | Some n, Some s => Some (n, s)
      | _, _ => None
      end
  | None => None
  end.

(** Reading a printed line ["<username>" "<hash>"] back: the text between
    the first pair of double quotes, one space, the text between the
    second pair, and nothing after it. *)
Definition parse_credential_line (line : str) : option (str * str) :=
  match strip_prefix dquote line with
  | None => None
  | Some r0 =>
      match split_at 34%N r0 with
      | None => None
      | Some (username, r1) =>
          match strip_prefix (lit " " ++ dquote) r1 with
          | None => None
          | Some r2 =>
              match split_at 34%N r2 with
              | Some (hash_value, []) => Some (username, hash_value)
              | _ => None
              end
          end
      end
  end.

(** A printed line that is empty or a [#] comment. *)
Definition is_blank_or_comment (line : str) : bool :=
  match line with
  | [] => true
  | c :: _ => (c =? 35)%N
  end.

(** A world for examples: a random source that delivers zero bytes. *)
Definition quiet_world : world := World (fun _ => x00) [].

(** * Properties *)

(** ** Bytes *)

Lemma Z_of_byte_range (b : byte) : 0 <= Z_of_byte b < 256.
Proof.
  unfold Z_of_byte. pose proof (Byte.to_N_bounded b). lia.
Qed.

Lemma byte_of_Z_eq (z : Z) (b : byte) :
  z mod 256 = Z_of_byte b -> byte_of_Z z = b.
Proof.
  intros H. unfold byte_of_Z. rewrite H. unfold Z_of_byte.
  rewrite N2Z.id, Byte.of_to_N. reflexivity.
Qed.

Lemma byte_of_Z_of_byte (b : byte) : byte_of_Z (Z_of_byte b) = b.
Proof.
  apply byte_of_Z_eq. apply Z.mod_small, Z_of_byte_range.
Qed.

(** ** Digests have 32 bytes *)

Lemma sha256_length (m : bytes) : length (hashlib_sha256 m) = 32%nat.
Proof.
  unfold hashlib_sha256, SHA256.sha256, SHA256.digest_of.
  rewrite !length_app. reflexivity.
Qed.

Lemma hmac_sha256_length (key msg : bytes) :
  length (hmac_sha256 key msg) = 32%nat.
Proof. unfold hmac_sha256. apply sha256_length. Qed.

Lemma xor_bytes_length (xs ys : bytes) :
  length xs = length ys -> length (xor_bytes xs ys) = length xs.
Proof.
  revert ys. induction xs as [|x xs IH]; intros [|y ys] H; simpl in *;
    try discriminate; auto.
Qed.

Lemma pbkdf2_step_length (password : bytes) (tu : bytes * bytes) :
  length (fst tu) = 32%nat -> length (fst (pbkdf2_step password tu)) = 32%nat.
Proof.
  intros H. unfold pbkdf2_step. simpl.
  rewrite xor_bytes_length; rewrite ?hmac_sha256_length; auto.
Qed.

Lemma pbkdf2_block_length (password salt : bytes) (iterations : Z) :
  length (pbkdf2_block password salt iterations) = 32%nat.
Proof.
  unfold pbkdf2_block.
  set (u1 := hmac_sha256 password (salt ++ SHA256.word_bytes 1)).
  assert (H1 : length (fst (u1, u1)) = 32%nat) by apply hmac_sha256_length.
  revert H1. generalize (u1, u1).
  destruct (iterations - 1) as [|n|n]; simpl; auto.
  intros p Hp. apply Pos.iter_invariant with (Inv := fun tu => length (fst tu) = 32%nat); auto.
  intros tu Htu. apply pbkdf2_step_length; assumption.
Qed.

(** The library call returns exactly on the arguments it accepts. *)
Lemma pbkdf2_returns (password salt : bytes) (iterations : Z) :
  accepted password salt iterations ->
  hashlib_pbkdf2_hmac_sha256 password salt iterations
  = Ok (pbkdf2_block password salt iterations).
Proof.
  unfold accepted, hashlib_pbkdf2_hmac_sha256, LONG_MIN, LONG_MAX, INT_MAX.
  intros (Hp & Hs & Hi).
  destruct (Z.ltb_spec iterations (- 2 ^ 63)); [lia|].
  destruct (Z.ltb_spec (2 ^ 63 - 1) iterations); [lia|]. cbn [orb].
  destruct (Z.ltb_spec (2 ^ 31 - 1) (Z.of_nat (length password))); [lia|].
  destruct (Z.ltb_spec (2 ^ 31 - 1) (Z.of_nat (length salt))); [lia|].
  destruct (Z.ltb_spec iterations 1); [lia|].
  destruct (Z.ltb_spec (2 ^ 31 - 1) iterations); [lia | reflexivity].
Qed.

Lemma pbkdf2_returned (password salt : bytes) (iterations : Z) (sp : bytes) :
  hashlib_pbkdf2_hmac_sha256 password salt iterations = Ok sp ->
  accepted password salt iterations
  /\ sp = pbkdf2_block password salt iterations.
Proof.
  unfold accepted, hashlib_pbkdf2_hmac_sha256, LONG_MIN, LONG_MAX, INT_MAX.
  destruct (Z.ltb_spec iterations (- 2 ^ 63)); [discriminate|].
  destruct (Z.ltb_spec (2 ^ 63 - 1) iterations); [discriminate|]. cbn [orb].
  destruct (Z.ltb_spec (2 ^ 31 - 1) (Z.of_nat (length password))); [discriminate|].
  destruct (Z.ltb_spec (2 ^ 31 - 1) (Z.of_nat (length salt))); [discriminate|].
  destruct (Z.ltb_spec iterations 1); [discriminate|].
  destruct (Z.ltb_spec (2 ^ 31 - 1) iterations); [discriminate|].
  intros E. injection E as <-. repeat split; lia.
Qed.

(** What the library call raises, and when. *)
Lemma pbkdf2_raises (password salt : bytes) (iterations : Z) :
  (INT_MAX < Z.of_nat (length password) \/ INT_MAX < Z.of_nat (length salt)
   \/ iterations < LONG_MIN \/ INT_MAX < iterations ->
   hashlib_pbkdf2_hmac_sha256 password salt iterations = Raise OverflowError)
  /\ (Z.of_nat (length password) <= INT_MAX ->
      Z.of_nat (length salt) <= INT_MAX ->
      LONG_MIN <= iterations < 1 ->
      hashlib_pbkdf2_hmac_sha256 password salt iterations = Raise ValueError).
Proof.
  unfold hashlib_pbkdf2_hmac_sha256, LONG_MIN, LONG_MAX, INT_MAX.
  destruct (Z.ltb_spec iterations (- 2 ^ 63));
    destruct (Z.ltb_spec (2 ^ 63 - 1) iterations); cbn [orb];
    try (split; [reflexivity | lia]).
  destruct (Z.ltb_spec (2 ^ 31 - 1) (Z.of_nat (length password)));
    [split; [reflexivity | lia]|].
  destruct (Z.ltb_spec (2 ^ 31 - 1) (Z.of_nat (length salt)));
    [split; [reflexivity | lia]|].
  destruct (Z.ltb_spec iterations 1); [split; [lia | reflexivity]|].
  destruct (Z.ltb_spec (2 ^ 31 - 1) iterations); split; try reflexivity; lia.
Qed.

Lemma pbkdf2_error (password salt : bytes) (iterations : Z) (e : exn) :
  hashlib_pbkdf2_hmac_sha256 password salt iterations = Raise e ->
  e = ValueError \/ e = OverflowError.
Proof.
  unfold hashlib_pbkdf2_hmac_sha256.
  repeat match goal with
         | |- context [if ?b then _ else _] => destruct b
         end; intros E; try discriminate E; injection E as <-; auto.
Qed.

(** ** Base64 *)

Lemma below_64 (p : Z -> bool) :
  forallb p (map Z.of_nat (seq 0 64)) = true ->
  forall i, 0 <= i < 64 -> p i = true.
Proof.
  intros H i Hi. rewrite forallb_forall in H. apply H.
  rewrite <- (Z2Nat.id i) by lia. apply in_map, in_seq. lia.
Qed.

Lemma b64_index_char (i : Z) :
  0 <= i < 64 -> b64_index (b64_char i) = Some i.
Proof.
  intros Hi.
  pose proof (below_64
    (fun i => match b64_index (b64_char i) with
              | Some j => j =? i
              | None => false
              end) eq_refl i Hi) as H.
  cbv beta in H. destruct (b64_index (b64_char i)); [|discriminate].
  apply Z.eqb_eq in H. congruence.
Qed.

Lemma b64_char_not_pad (i : Z) :
  0 <= i < 64 -> Byte.eqb (b64_char i) b64_pad = false.
Proof.
  intros Hi.
  apply negb_true_iff.
  exact (below_64 (fun i => negb (Byte.eqb (b64_char i) b64_pad)) eq_refl i Hi).
Qed.

Lemma b64_char_class (i : Z) :
  0 <= i < 64 -> is_b64_char (Byte.to_N (b64_char i)) = true.
Proof.
  intros Hi.
  exact (below_64 (fun i => is_b64_char (Byte.to_N (b64_char i))) eq_refl i Hi).
Qed.

Lemma b64_char_ascii (i : Z) :
  0 <= i < 64 -> (Z_of_byte (b64_char i) <? 128) = true.
Proof.
  intros Hi.
  exact (below_64 (fun i => Z_of_byte (b64_char i) <? 128) eq_refl i Hi).
Qed.

Lemma sextet_range (n k : Z) : 0 <= Z.land (Z.shiftr n k) 63 < 64.
Proof.
  change 63 with (Z.ones 6). rewrite Z.land_ones by lia.
  apply Z.mod_pos_bound. reflexivity.
Qed.

Lemma sextet_div (n k : Z) :
  0 <= k -> Z.land (Z.shiftr n k) 63 = (n / 2 ^ k) mod 64.
Proof.
  intros Hk. change 63 with (Z.ones 6).
  rewrite Z.land_ones by lia. rewrite Z.shiftr_div_pow2 by lia. reflexivity.
Qed.

Lemma b64_group_val (a b c : byte) :
  b64_group a b c = Z_of_byte a * 65536 + Z_of_byte b * 256 + Z_of_byte c.
Proof.
  unfold b64_group. rewrite !Z.shiftl_mul_pow2 by lia. reflexivity.
Qed.


(** Induction over a byte string three bytes at a time, as the encoder
    consumes it. *)
Lemma list_ind3 {A} (P : list A -> Prop) :
  P [] -> (forall a, P [a]) -> (forall a b, P [a; b]) ->
  (forall a b c l, P l -> P (a :: b :: c :: l)) ->
  forall l, P l.
Proof.
  intros H0 H1 H2 H3.
  assert (H : forall l, P l /\ (forall a, P (a :: l)) /\ (forall a b, P (a :: b :: l))).
  { induction l as [|x l [IH0 [IH1 IH2]]]; repeat split; auto. }
  intros l. apply H.
Qed.

Lemma b64_quad_sextets (a b c : byte) :
  let n := b64_group a b c in
  b64_quad (b64_sextet n 18) (b64_sextet n 12) (b64_sextet n 6) (b64_sextet n 0)
  = Some [a; b; c].
Proof.
  intros n. unfold b64_quad, b64_sextet.
  rewrite !b64_index_char by apply sextet_range.
  rewrite !sextet_div by lia. rewrite !Z.shiftl_mul_pow2 by lia.
  rewrite !Z.shiftr_div_pow2 by lia.
  subst n. rewrite b64_group_val.
  pose proof (Z_of_byte_range a). pose proof (Z_of_byte_range b).
  pose proof (Z_of_byte_range c).
  change (2 ^ 18) with 262144. change (2 ^ 12) with 4096. change (2 ^ 6) with 64.
  change (2 ^ 0) with 1. change (2 ^ 16) with 65536. change (2 ^ 8) with 256.
  set (x := Z_of_byte a) in *. set (y := Z_of_byte b) in *.
  set (z := Z_of_byte c) in *.
  set (m := x * 65536 + y * 256 + z).
  assert (Hm : (m / 262144) mod 64 * 262144 + (m / 4096) mod 64 * 4096
               + (m / 64) mod 64 * 64 + (m / 1) mod 64 = m).
  { subst m. Z.div_mod_to_equations. lia. }
  rewrite Hm. f_equal.
  f_equal; [|f_equal; [|f_equal]]; apply byte_of_Z_eq; subst m x y z;
    Z.div_mod_to_equations; lia.
Qed.

Lemma b64_sextet_not_pad (n k : Z) :
  Byte.eqb (b64_sextet n k) b64_pad = false.
Proof. apply b64_char_not_pad, sextet_range. Qed.

Lemma b64_last_quad_full (a b c : byte) :
  let n := b64_group a b c in
  b64_last_quad (b64_sextet n 18) (b64_sextet n 12) (b64_sextet n 6) (b64_sextet n 0)
  = Some [a; b; c].
Proof.
  intros n. unfold b64_last_quad.
  rewrite b64_sextet_not_pad. apply b64_quad_sextets.
Qed.

Lemma b64_last_quad_two (a b : byte) :
  let n := b64_group a b x00 in
  b64_last_quad (b64_sextet n 18) (b64_sextet n 12) (b64_sextet n 6) b64_pad
  = Some [a; b].
Proof.
  intros n. unfold b64_last_quad.
  change (Byte.eqb b64_pad b64_pad) with true. cbv iota.
  rewrite b64_sextet_not_pad. unfold b64_sextet.
  rewrite !b64_index_char by apply sextet_range.
  rewrite !sextet_div by lia. rewrite !Z.shiftl_mul_pow2 by lia.
  rewrite !Z.shiftr_div_pow2 by lia.
  subst n. rewrite b64_group_val. change (Z_of_byte x00) with 0.
  pose proof (Z_of_byte_range a). pose proof (Z_of_byte_range b).
  change (2 ^ 18) with 262144. change (2 ^ 12) with 4096. change (2 ^ 6) with 64.
  change (2 ^ 16) with 65536. change (2 ^ 8) with 256.
  set (x := Z_of_byte a) in *. set (y := Z_of_byte b) in *.
  set (m := x * 65536 + y * 256 + 0).
  assert (Hm : (m / 262144) mod 64 * 262144 + (m / 4096) mod 64 * 4096
               + (m / 64) mod 64 * 64 = m).
  { subst m. Z.div_mod_to_equations. lia. }
  rewrite Hm. f_equal.
  f_equal; [|f_equal]; apply byte_of_Z_eq; subst m x y;
    Z.div_mod_to_equations; lia.
Qed.

Lemma b64_last_quad_one (a : byte) :
  let n := b64_group a x00 x00 in
  b64_last_quad (b64_sextet n 18) (b64_sextet n 12) b64_pad b64_pad = Some [a].
Proof.
  intros n. unfold b64_last_quad.
  change (Byte.eqb b64_pad b64_pad) with true. cbv iota.
  unfold b64_sextet.
  rewrite !b64_index_char by apply sextet_range.
  rewrite !sextet_div by lia. rewrite !Z.shiftl_mul_pow2 by lia.
  rewrite !Z.shiftr_div_pow2 by lia.
  subst n. rewrite b64_group_val. change (Z_of_byte x00) with 0.
  pose proof (Z_of_byte_range a).
  change (2 ^ 18) with 262144. change (2 ^ 12) with 4096.
  change (2 ^ 16) with 65536.
  set (x := Z_of_byte a) in *.
  f_equal. f_equal. apply byte_of_Z_eq. subst x.
  Z.div_mod_to_equations. lia.
Qed.

(** Decoding is a left inverse of encoding. *)
Lemma b64decode_bytes_b64encode (s : bytes) :
  b64decode_bytes (b64encode s) = Some s.
Proof.
  induction s as [|a|a b|a b c rest IH] using list_ind3.
  - reflexivity.
  - apply b64_last_quad_one.
  - apply b64_last_quad_two.
  - change (b64encode (a :: b :: c :: rest)) with
      (let n := b64_group a b c in
       b64_sextet n 18 :: b64_sextet n 12 :: b64_sextet n 6 :: b64_sextet n 0
         :: b64encode rest).
    cbv zeta.
    change (b64decode_bytes (?c0 :: ?c1 :: ?c2 :: ?c3 :: ?r)) with
      (match r with
       | [] => b64_last_quad c0 c1 c2 c3
       | _ => match b64_quad c0 c1 c2 c3, b64decode_bytes r with
              | Some hd, Some tl => Some (hd ++ tl)
              | _, _ => None
              end
       end).
    destruct (b64encode rest) as [|e es] eqn:E.
    + rewrite b64_last_quad_full.
      simpl in IH. injection IH as <-. reflexivity.
    + rewrite b64_quad_sextets. rewrite IH. reflexivity.
Qed.

Lemma b64_sextet_class (n k : Z) :
  is_b64_char (Byte.to_N (b64_sextet n k)) = true.
Proof. apply b64_char_class, sextet_range. Qed.

Lemma b64_sextet_ascii (n k : Z) : (Z_of_byte (b64_sextet n k) <? 128) = true.
Proof. apply b64_char_ascii, sextet_range. Qed.

Lemma b64encode_ascii (s : bytes) :
  forallb (fun b => Z_of_byte b <? 128) (b64encode s) = true.
Proof.
  induction s as [|a|a b|a b c rest IH] using list_ind3;
    cbn [b64encode forallb]; rewrite ?b64_sextet_ascii; auto.
Qed.

Lemma b64encode_is_base64 (s : bytes) :
  is_base64 (map Byte.to_N (b64encode s)) = true.
Proof.
  induction s as [|a|a b|a b c rest IH] using list_ind3.
  - reflexivity.
  - cbn [b64encode map is_base64]. rewrite !b64_sextet_class. reflexivity.
  - cbn [b64encode map is_base64]. rewrite !b64_sextet_class. reflexivity.
  - cbn [b64encode map]. 
    change (is_base64 (?c0 :: ?c1 :: ?c2 :: ?c3 :: ?r)) with
      (is_b64_char c0 && is_b64_char c1
       && match r with
          | [] => (is_b64_char c2 && is_b64_char c3)
                  || (is_b64_char c2 && is_pad c3)
                  || (is_pad c2 && is_pad c3)
          | _ => is_b64_char c2 && is_b64_char c3 && is_base64 r
          end).
    rewrite !b64_sextet_class.
    destruct (map Byte.to_N (b64encode rest)); [reflexivity|].
    rewrite IH. reflexivity.
Qed.

Lemma bytes_decode_ascii_b64encode (s : bytes) :
  bytes_decode_ascii (b64encode s) = Ok (map Byte.to_N (b64encode s)).
Proof.
  unfold bytes_decode_ascii. rewrite b64encode_ascii. reflexivity.
Qed.

Lemma str_encode_ascii_decode (bs : bytes) :
  forallb (fun b => Z_of_byte b <? 128) bs = true ->
  str_encode_ascii (map Byte.to_N bs) = Some bs.
Proof.
  induction bs as [|b bs IH]; [reflexivity|].
  cbn [forallb map str_encode_ascii]. intros H.
  apply andb_true_iff in H. destruct H as [Hb Hbs].
  assert (Hlt : (Byte.to_N b <? 128)%N = true).
  { apply N.ltb_lt. apply Z.ltb_lt in Hb. unfold Z_of_byte in Hb. lia. }
  rewrite Hlt, Byte.of_to_N, IH by assumption. reflexivity.
Qed.

(** A consumer that decodes an encoded segment gets the bytes back. *)
Lemma b64decode_b64encode (s : bytes) :
  b64decode (map Byte.to_N (b64encode s)) = Some s.
Proof.
  unfold b64decode.
  rewrite str_encode_ascii_decode by apply b64encode_ascii.
  apply b64decode_bytes_b64encode.
Qed.

Lemma b64encode_text (s : bytes) :
  forallb is_b64_text (map Byte.to_N (b64encode s)) = true.
Proof.
  unfold is_b64_text.
  induction s as [|a|a b|a b c rest IH] using list_ind3;
    cbn [b64encode map forallb]; rewrite ?b64_sextet_class; auto.
Qed.

(** ** The decimal count *)

Lemma lit_inj (a b : string) : lit a = lit b -> a = b.
Proof.
  unfold lit. intros H.
  rewrite <- (string_of_list_ascii_of_string a).
  rewrite <- (string_of_list_ascii_of_string b).
  f_equal. revert H.
  generalize (list_ascii_of_string a) (list_ascii_of_string b).
  induction l as [|x l IH]; intros [|y l'] H; simpl in H; try discriminate; auto.
  injection H as Hxy Hl. f_equal; auto.
  rewrite <- (ascii_N_embedding x), <- (ascii_N_embedding y). congruence.
Qed.

Lemma uint_digits (d : Decimal.uint) :
  forallb is_digit (lit (NilEmpty.string_of_uint d)) = true.
Proof. induction d; simpl; auto. Qed.

Lemma int_str_pos (p : positive) :
  int_str (Zpos p) = lit (NilEmpty.string_of_uint (Pos.to_uint p)).
Proof.
  unfold int_str. simpl.
  pose proof (Unsigned.to_uint_nonnil p) as H.
  destruct (Pos.to_uint p); try reflexivity. congruence.
Qed.

Lemma int_str_digits (n : Z) : 0 < n -> is_digits (int_str n) = true.
Proof.
  intros Hn. destruct n as [|p|p]; try lia.
  rewrite int_str_pos. unfold is_digits. rewrite uint_digits.
  pose proof (Unsigned.to_uint_nonnil p) as H.
  destruct (Pos.to_uint p); try reflexivity. congruence.
Qed.

Lemma int_str_inj (n m : Z) : 0 < n -> 0 < m -> int_str n = int_str m -> n = m.
Proof.
  intros Hn Hm. destruct n as [|p|p], m as [|q|q]; try lia.
  rewrite !int_str_pos. intros H. apply lit_inj in H.
  assert (E : Some (Pos.to_uint p) = Some (Pos.to_uint q)).
  { rewrite <- !NilEmpty.usu. rewrite H. reflexivity. }
  injection E as E. apply Unsigned.to_uint_inj in E. congruence.
Qed.

(** ** Parsing what was formatted *)

Lemma strip_prefix_app (p s : str) : strip_prefix p (p ++ s) = Some s.
Proof.
  induction p as [|a p IH]; simpl; [destruct s; reflexivity|].
  rewrite N.eqb_refl. exact IH.
Qed.

Lemma split_at_app (c : N) (l r : str) :
  forallb (fun x => negb (x =? c)%N) l = true ->
  split_at c (l ++ c :: r) = Some (l, r).
Proof.
  induction l as [|x l IH]; simpl; intros H.
  - rewrite N.eqb_refl. reflexivity.
  - apply andb_true_iff in H. destruct H as [Hx Hl].
    apply negb_true_iff in Hx. rewrite Hx, IH by assumption. reflexivity.
Qed.

Lemma forallb_impl {A} (p q : A -> bool) (l : list A) :
  (forall x, p x = true -> q x = true) ->
  forallb p l = true -> forallb q l = true.
Proof.
  intros Hpq. rewrite !forallb_forall. auto.
Qed.

Lemma digit_not_colon (c : N) : is_digit c = true -> negb (c =? colon)%N = true.
Proof.
  unfold is_digit, colon. intros H. apply andb_true_iff in H.
  destruct H as [_ H]. apply N.leb_le in H.
  apply negb_true_iff, N.eqb_neq. lia.
Qed.

Lemma b64_text_not_delim (d c : N) :
  d = colon \/ d = dollar ->
  is_b64_text c = true -> negb (c =? d)%N = true.
Proof.
  intros Hd H. apply negb_true_iff, N.eqb_neq. intros ->.
  destruct Hd as [-> | ->]; discriminate H.
Qed.

Lemma is_digits_no_colon (s : str) :
  is_digits s = true -> forallb (fun x => negb (x =? colon)%N) s = true.
Proof.
  unfold is_digits. intros H. apply andb_true_iff in H. destruct H as [_ H].
  revert H. apply forallb_impl. exact digit_not_colon.
Qed.

Lemma b64encode_no_delim (d : N) (s : bytes) :
  d = colon \/ d = dollar ->
  forallb (fun x => negb (x =? d)%N) (map Byte.to_N (b64encode s)) = true.
Proof.
  intros Hd. generalize (b64encode_text s). apply forallb_impl.
  intros c. apply b64_text_not_delim. exact Hd.
Qed.

(** The string built from a count and three encoded segments parses back
    into them. *)
Lemma parse_scram_format (n : Z) (a b c : bytes) :
  0 < n ->
  parse_scram
    (lit "SCRAM-SHA-256$" ++ int_str n ++ lit ":" ++ map Byte.to_N (b64encode a)
       ++ lit "$" ++ map Byte.to_N (b64encode b) ++ lit ":"
       ++ map Byte.to_N (b64encode c))
  = Some (Segments (int_str n) (map Byte.to_N (b64encode a))
            (map Byte.to_N (b64encode b)) (map Byte.to_N (b64encode c))).
Proof.
  intros Hn. unfold parse_scram.
  rewrite strip_prefix_app.
  change (lit ":") with [colon]. change (lit "$") with [dollar].
  cbn [app].
  rewrite split_at_app by (apply is_digits_no_colon, int_str_digits, Hn).
  rewrite split_at_app by (apply b64encode_no_delim; auto).
  rewrite split_at_app by (apply b64encode_no_delim; auto).
  reflexivity.
Qed.

(** ** UTF-8 *)

Lemma utf8_scalar_value (c : N) :
  is_scalar_value c = true -> exists bs, utf8_code_point c = Some bs.
Proof.
  unfold is_scalar_value, utf8_code_point. intros H.
  destruct (Z.of_N c <? 0x80) eqn:E1; [eauto|].
  destruct (Z.of_N c <? 0x800) eqn:E2; [eauto|].
  destruct ((0xd800 <=? Z.of_N c) && (Z.of_N c <? 0xe000)) eqn:E3.
  - exfalso. apply andb_true_iff in E3. destruct E3 as [Ea Eb].
    apply Z.leb_le in Ea. apply Z.ltb_lt in Eb.
    apply orb_true_iff in H. destruct H as [H|H].
    + apply N.ltb_lt in H. lia.
    + apply andb_true_iff in H. destruct H as [H _]. apply N.leb_le in H. lia.
  - destruct (Z.of_N c <? 0x10000) eqn:E4; [eauto|].
    destruct (Z.of_N c <? 0x110000) eqn:E5; [eauto|].
    exfalso. apply Z.ltb_ge in E5.
    apply orb_true_iff in H. destruct H as [H|H].
    + apply N.ltb_lt in H. lia.
    + apply andb_true_iff in H. destruct H as [_ H]. apply N.ltb_lt in H. lia.
Qed.

(** A string of scalar values has a UTF-8 encoding. *)
Lemma str_encode_utf8_scalar (s : str) :
  forallb is_scalar_value s = true -> exists bs, str_encode_utf8 s = Ok bs.
Proof.
  induction s as [|c s IH]; simpl; intros H; [eauto|].
  apply andb_true_iff in H. destruct H as [Hc Hs].
  destruct (utf8_scalar_value c Hc) as [bs ->].
  destruct (IH Hs) as [tl ->]. eauto.
Qed.

(** ** What a call computes *)

(** With a supplied salt the random source is not read, and the result is a
    function of the three arguments. *)
Lemma frame_supplied (pw : str) (salt : bytes) (it : Z) (w : world) :
  generate_scram_sha256_hash_frame pw (Some salt) it w
  = (match str_encode_utf8 pw with
     | Raise e => Raise e
     | Ok pwb =>
         match hashlib_pbkdf2_hmac_sha256 pwb salt it with
         | Raise e => Raise e
         | Ok _ => Ok (derived_frame pwb salt it)
         end
     end, w).
Proof.
  unfold generate_scram_sha256_hash_frame, bind, ret, lift.
  destruct (str_encode_utf8 pw) as [pwb|e]; [|reflexivity].
  destruct (hashlib_pbkdf2_hmac_sha256 pwb salt it) as [sp|e] eqn:E;
    [|reflexivity].
  apply pbkdf2_returned in E. destruct E as [_ ->].
  rewrite !bytes_decode_ascii_b64encode. reflexivity.
Qed.

(** With the salt omitted the call is the call with the next 16 bytes of
    the random source supplied. *)
Lemma frame_omitted (pw : str) (it : Z) (w : world) :
  generate_scram_sha256_hash_frame pw None it w
  = generate_scram_sha256_hash_frame pw
      (Some (map (entropy w) (seq 0 16))) it
      (World (fun i => entropy w (16 + i)%nat) (stdout w)).
Proof. reflexivity. Qed.

Lemma hash_of_frame (pw : str) (salt : option bytes) (it : Z) (w : world) :
  generate_scram_sha256_hash pw salt it w
  = match generate_scram_sha256_hash_frame pw salt it w with
    | (Ok fr, w') => (Ok (scram_format it fr), w')
    | (Raise e, w') => (Raise e, w')
    end.
Proof. reflexivity. Qed.

(** A call that returns has encoded the password and derived the frame
    from arguments the library accepts. *)
Lemma frame_returns (pw : str) (salt : option bytes) (it : Z)
    (w w' : world) (fr : frame) :
  generate_scram_sha256_hash_frame pw salt it w = (Ok fr, w') ->
  exists pwb s,
    str_encode_utf8 pw = Ok pwb /\ accepted pwb s it
    /\ fr = derived_frame pwb s it
    /\ match salt with
       | Some s' => s = s' /\ w' = w
       | None => secrets_token_bytes 16 w = (Ok s, w')
       end.
Proof.
  destruct salt as [s|].
  - rewrite frame_supplied. intros H.
    destruct (str_encode_utf8 pw) as [pwb|e]; [|discriminate].
    destruct (hashlib_pbkdf2_hmac_sha256 pwb s it) as [sp|e] eqn:E;
      [|discriminate].
    apply pbkdf2_returned in E. destruct E as [Hacc _].
    injection H as <- <-. exists pwb, s. auto.
  - rewrite frame_omitted, frame_supplied. intros H.
    destruct (str_encode_utf8 pw) as [pwb|e]; [|discriminate].
    destruct (hashlib_pbkdf2_hmac_sha256 pwb (map (entropy w) (seq 0 16)) it)
      as [sp|e] eqn:E; [|discriminate].
    apply pbkdf2_returned in E. destruct E as [Hacc _].
    injection H as <- <-.
    exists pwb, (map (entropy w) (seq 0 16)). auto.
Qed.

Lemma hash_returns (pw : str) (salt : option bytes) (it : Z)
    (w w' : world) (out : str) :
  generate_scram_sha256_hash pw salt it w = (Ok out, w') ->
  exists fr,
    generate_scram_sha256_hash_frame pw salt it w = (Ok fr, w')
    /\ out = scram_format it fr.
Proof.
  rewrite hash_of_frame.
  destruct (generate_scram_sha256_hash_frame pw salt it w) as [[fr|e] w1];
    [|discriminate].
  intros H. injection H as <- <-. eauto.
Qed.

(** The formatted frame matches the pattern and parses into its segments. *)
Lemma scram_format_parses (pwb salt : bytes) (it : Z) :
  0 < it ->
  parse_scram (scram_format it (derived_frame pwb salt it))
  = Some (Segments (int_str it) (b64 salt)
            (b64 (stored_key (derived_frame pwb salt it)))
            (b64 (server_key (derived_frame pwb salt it)))).
Proof.
  intros Hit. unfold scram_format, derived_frame, b64. cbn [salt_b64 stored_key_b64 server_key_b64 stored_key server_key].
  apply parse_scram_format. exact Hit.
Qed.

Lemma scram_format_matches (pwb salt : bytes) (it : Z) :
  0 < it ->
  matches_scram_pattern (scram_format it (derived_frame pwb salt it)) = true.
Proof.
  intros Hit. unfold matches_scram_pattern.
  rewrite scram_format_parses by exact Hit.
  cbn [seg_iterations seg_salt seg_stored_key seg_server_key]. unfold b64.
  rewrite int_str_digits by exact Hit.
  rewrite !b64encode_is_base64. reflexivity.
Qed.

Lemma b64decode_b64 (x : bytes) : b64decode (b64 x) = Some x.
Proof. apply b64decode_b64encode. Qed.

(** What a returning call returns, in one statement. *)
Lemma hash_returns_accepted (pw : str) (salt : option bytes) (it : Z)
    (w w' : world) (out : str) :
  generate_scram_sha256_hash pw salt it w = (Ok out, w') ->
  exists pwb s,
    str_encode_utf8 pw = Ok pwb /\ accepted pwb s it
    /\ out = scram_format it (derived_frame pwb s it)
    /\ match salt with
       | Some s' => s = s' /\ w' = w
       | None => secrets_token_bytes 16 w = (Ok s, w')
       end.
Proof.
  intros H. apply hash_returns in H. destruct H as (fr & Hfr & ->).
  apply frame_returns in Hfr. destruct Hfr as (pwb & s & Hpw & Hit & -> & Hs).
  exists pwb, s. auto.
Qed.

Lemma hash_returns_derived (pw : str) (salt : option bytes) (it : Z)
    (w w' : world) (out : str) :
  generate_scram_sha256_hash pw salt it w = (Ok out, w') ->
  exists pwb s,
    str_encode_utf8 pw = Ok pwb /\ 1 <= it
    /\ out = scram_format it (derived_frame pwb s it)
    /\ match salt with
       | Some s' => s = s' /\ w' = w
       | None => secrets_token_bytes 16 w = (Ok s, w')
       end.
Proof.
  intros H. apply hash_returns_accepted in H.
  destruct H as (pwb & s & Hpw & (_ & _ & Hit & _) & Hout & Hs).
  exists pwb, s. auto.
Qed.

(** A call on an encodable password returns when the library accepts the
    encoded password, the salt and the count. *)
Lemma hash_supplied_returns (pw : str) (pwb salt : bytes) (it : Z) (w : world) :
  str_encode_utf8 pw = Ok pwb -> accepted pwb salt it ->
  generate_scram_sha256_hash pw (Some salt) it w
  = (Ok (scram_format it (derived_frame pwb salt it)), w).
Proof.
  intros Hpw Hacc. rewrite hash_of_frame, frame_supplied, Hpw.
  rewrite pbkdf2_returns by exact Hacc. reflexivity.
Qed.

Lemma token_bytes_length (n : nat) (w w' : world) (s : bytes) :
  secrets_token_bytes n w = (Ok s, w') -> length s = n.
Proof.
  unfold secrets_token_bytes. intros H.
  assert (E : map (entropy w) (seq 0 n) = s) by congruence.
  rewrite <- E, length_map, length_seq. reflexivity.
Qed.

(** * The claims *)



(** C2. With a supplied salt and a count of at least one, the result of a
    call depends on (password, salt, iterations) only: two calls, whatever
    the state of the random source, give the same result, and the call
    leaves the world as it found it. *)
Theorem hash_deterministic
    (pw : str) (salt : bytes) (it : Z) (w1 w2 : world) :
  1 <= it ->
  fst (generate_scram_sha256_hash pw (Some salt) it w1)
  = fst (generate_scram_sha256_hash pw (Some salt) it w2)
  /\ snd (generate_scram_sha256_hash pw (Some salt) it w1) = w1.
Proof.
  intros _. rewrite !hash_of_frame, !frame_supplied.
  destruct (str_encode_utf8 pw) as [pwb|e]; [|split; reflexivity].
  destruct (hashlib_pbkdf2_hmac_sha256 pwb salt it); split; reflexivity.
Qed.

Lemma hash_deterministic_witness :
  1 <= 4096
  /\ fst (generate_scram_sha256_hash (lit "secure_app_password_2024")
            (Some zero_salt) 4096 quiet_world)
     = fst (generate_scram_sha256_hash (lit "secure_app_password_2024")
              (Some zero_salt) 4096 (World (fun _ => xff) [lit "x"]))
  /\ snd (generate_scram_sha256_hash (lit "secure_app_password_2024")
            (Some zero_salt) 4096 quiet_world) = quiet_world.
Proof.
  assert (Hit : 1 <= 4096) by lia.
  split; [exact Hit|].
  exact (hash_deterministic (lit "secure_app_password_2024") zero_salt 4096
           quiet_world (World (fun _ => xff) [lit "x"]) Hit).
Defined.

(** C3. The stored key placed in the output is the plain SHA-256 digest of
    the client key, the client key being the HMAC of the 32-byte salted
    password that PBKDF2-HMAC-SHA-256 derives from the UTF-8 bytes of the
    password, the salt and the count. *)
Theorem stored_key_is_digest_of_client_key
    (pw : str) (salt : bytes) (it : Z) (w w' : world) (out : str) :
  0 < it ->
  generate_scram_sha256_hash pw (Some salt) it w = (Ok out, w') ->
  exists (pwb sp : bytes) (g : segments),
    str_encode_utf8 pw = Ok pwb
    /\ hashlib_pbkdf2_hmac_sha256 pwb salt it = Ok sp
    /\ length sp = 32%nat
    /\ parse_scram out = Some g
    /\ b64decode (seg_stored_key g)
       = Some (hashlib_sha256 (hmac_sha256 sp Client_Key)).
Proof.
  intros Hit H. apply hash_returns_accepted in H.
  destruct H as (pwb & s & Hpw & Hacc & -> & <- & _).
  exists pwb, (pbkdf2_block pwb s it). eexists.
  split; [exact Hpw|]. split.
  { apply pbkdf2_returns. exact Hacc. }
  split; [apply pbkdf2_block_length|].
  split; [apply scram_format_parses; exact Hit|].
  cbn [seg_stored_key]. apply b64decode_b64.
Qed.

Lemma stored_key_is_digest_of_client_key_witness :
  0 < 1
  /\ generate_scram_sha256_hash [] (Some zero_salt) 1 quiet_world
     = (Ok example_hash, quiet_world)
  /\ exists (pwb sp : bytes) (g : segments),
       str_encode_utf8 [] = Ok pwb
       /\ hashlib_pbkdf2_hmac_sha256 pwb zero_salt 1 = Ok sp
       /\ length sp = 32%nat
       /\ parse_scram example_hash = Some g
       /\ b64decode (seg_stored_key g)
          = Some (hashlib_sha256 (hmac_sha256 sp Client_Key)).
Proof.
  assert (H : generate_scram_sha256_hash [] (Some zero_salt) 1 quiet_world
              = (Ok example_hash, quiet_world)) by (vm_compute; reflexivity).
  assert (Hit : 0 < 1) by lia.
  split; [exact Hit|]. split; [exact H|].
  exact (stored_key_is_digest_of_client_key [] zero_salt 1 quiet_world
           quiet_world example_hash Hit H).
Defined.

(** C4, as the code has it. The client key is HMAC-SHA-256, keyed by the
    salted password, of the fixed message [Client Key], and the server key
    that of the fixed message [Server Key]; each message is 10 ASCII bytes,
    in exactly this spelling. *)
Theorem client_and_server_key_messages
    (pw : str) (salt : option bytes) (it : Z) (w w' : world) (fr : frame) :
  generate_scram_sha256_hash_frame pw salt it w = (Ok fr, w') ->
  client_key fr = hmac_sha256 (salted_password fr) Client_Key
  /\ server_key fr = hmac_sha256 (salted_password fr) Server_Key
  /\ Client_Key = map byte_of_Z [67; 108; 105; 101; 110; 116; 32; 75; 101; 121]
  /\ Server_Key = map byte_of_Z [83; 101; 114; 118; 101; 114; 32; 75; 101; 121]
  /\ length Client_Key = 10%nat /\ length Server_Key = 10%nat
  /\ forallb (fun b => Z_of_byte b <? 128) (Client_Key ++ Server_Key) = true.
Proof.
  intros H. apply frame_returns in H.
  destruct H as (pwb & s & _ & _ & -> & _).
  repeat split.
Qed.

Lemma client_and_server_key_messages_witness :
  generate_scram_sha256_hash_frame [] (Some zero_salt) 1 quiet_world
  = (Ok (derived_frame [] zero_salt 1), quiet_world)
  /\ client_key (derived_frame [] zero_salt 1)
     = hmac_sha256 (salted_password (derived_frame [] zero_salt 1)) Client_Key
  /\ length Client_Key = 10%nat.
Proof.
  assert (H : generate_scram_sha256_hash_frame [] (Some zero_salt) 1 quiet_world
              = (Ok (derived_frame [] zero_salt 1), quiet_world))
    by (vm_compute; reflexivity).
  split; [exact H|].
  pose proof (client_and_server_key_messages [] (Some zero_salt) 1 quiet_world
                quiet_world (derived_frame [] zero_salt 1) H) as T.
  split; [exact (proj1 T)|].
  exact (proj1 (proj2 (proj2 (proj2 (proj2 T))))).
Defined.

(** C4, as the spec words it, fails: neither message is 8 bytes long. *)
Lemma key_messages_are_not_8_bytes :
  length Client_Key <> 8%nat /\ length Server_Key <> 8%nat.
Proof. split; discriminate. Qed.



(** C6. With the salt omitted, the call draws exactly 16 bytes from
    [secrets.token_bytes], derives the keys from those bytes, and writes
    them as the salt segment of the output. *)
Theorem omitted_salt_is_16_random_bytes
    (pw : str) (it : Z) (w w' : world) (out : str) :
  0 < it ->
  generate_scram_sha256_hash pw None it w = (Ok out, w') ->
  exists (salt pwb sp : bytes) (g : segments),
    secrets_token_bytes 16 w = (Ok salt, w')
    /\ length salt = 16%nat
    /\ str_encode_utf8 pw = Ok pwb
    /\ hashlib_pbkdf2_hmac_sha256 pwb salt it = Ok sp
    /\ parse_scram out = Some g
    /\ b64decode (seg_salt g) = Some salt
    /\ b64decode (seg_stored_key g)
       = Some (hashlib_sha256 (hmac_sha256 sp Client_Key))
    /\ b64decode (seg_server_key g) = Some (hmac_sha256 sp Server_Key)
    /\ generate_scram_sha256_hash pw (Some salt) it w' = (Ok out, w').
Proof.
  intros Hit H. apply hash_returns_accepted in H.
  destruct H as (pwb & s & Hpw & Hacc & -> & Hs).
  exists s, pwb, (pbkdf2_block pwb s it). eexists.
  split; [exact Hs|]. split.
  { exact (token_bytes_length _ _ _ _ Hs). }
  split; [exact Hpw|]. split.
  { apply pbkdf2_returns. exact Hacc. }
  split; [apply scram_format_parses; exact Hit|].
  cbn [seg_salt seg_stored_key seg_server_key].
  rewrite !b64decode_b64.
  split; [reflexivity|]. split; [reflexivity|]. split; [reflexivity|].
  apply hash_supplied_returns; assumption.
Qed.

Lemma omitted_salt_is_16_random_bytes_witness :
  0 < 1
  /\ generate_scram_sha256_hash [] None 1 quiet_world
     = (Ok example_hash, quiet_world)
  /\ exists (salt pwb sp : bytes) (g : segments),
       secrets_token_bytes 16 quiet_world = (Ok salt, quiet_world)
       /\ length salt = 16%nat
       /\ str_encode_utf8 [] = Ok pwb
       /\ hashlib_pbkdf2_hmac_sha256 pwb salt 1 = Ok sp
       /\ parse_scram example_hash = Some g
       /\ b64decode (seg_salt g) = Some salt
       /\ b64decode (seg_stored_key g)
          = Some (hashlib_sha256 (hmac_sha256 sp Client_Key))
       /\ b64decode (seg_server_key g) = Some (hmac_sha256 sp Server_Key)
       /\ generate_scram_sha256_hash [] (Some salt) 1 quiet_world
          = (Ok example_hash, quiet_world).
Proof.
  assert (H : generate_scram_sha256_hash [] None 1 quiet_world
              = (Ok example_hash, quiet_world)) by (vm_compute; reflexivity).
  assert (Hit : 0 < 1) by lia.
  split; [exact Hit|]. split; [exact H|].
  exact (omitted_salt_is_16_random_bytes [] 1 quiet_world quiet_world
           example_hash Hit H).
Defined.

(** C7, as the code has it. On a password that UTF-8 encodes (one
    without surrogate code points; the empty one is such) to at most
    [INT_MAX] bytes, a salt that is omitted or 16 bytes long and a count
    from 1 to [INT_MAX], the call returns a non-empty string of the pattern
    and raises nothing. *)
Theorem encodable_call_returns
    (pw : str) (pwb : bytes) (salt : option bytes) (it : Z) (w : world) :
  str_encode_utf8 pw = Ok pwb ->
  Z.of_nat (length pwb) <= INT_MAX ->
  (forall s, salt = Some s -> length s = 16%nat) ->
  1 <= it <= INT_MAX ->
  exists (out : str) (w' : world),
    generate_scram_sha256_hash pw salt it w = (Ok out, w')
    /\ out <> [] /\ matches_scram_pattern out = true.
Proof.
  intros Hb Hlen Hsalt Hit.
  assert (Hne : forall s, scram_format it (derived_frame pwb s it) <> [])
    by (intros s; discriminate).
  assert (Hacc : forall s, length s = 16%nat -> accepted pwb s it).
  { intros s Hs. unfold accepted. rewrite Hs. repeat split; try lia.
    discriminate. }
  destruct salt as [s|].
  - exists (scram_format it (derived_frame pwb s it)), w.
    split; [apply hash_supplied_returns; auto|].
    split; [apply Hne | apply scram_format_matches; lia].
  - eexists. eexists.
    split.
    + rewrite hash_of_frame, frame_omitted, <- hash_of_frame.
      apply hash_supplied_returns; [exact Hb|]. apply Hacc.
      rewrite length_map, length_seq. reflexivity.
    + split; [apply Hne | apply scram_format_matches; lia].
Qed.

Lemma encodable_call_returns_witness :
  str_encode_utf8 [] = Ok []
  /\ Z.of_nat (length (@nil byte)) <= INT_MAX
  /\ (forall s, Some zero_salt = Some s -> length s = 16%nat)
  /\ 1 <= 1 <= INT_MAX
  /\ exists (out : str) (w' : world),
       generate_scram_sha256_hash [] (Some zero_salt) 1 quiet_world = (Ok out, w')
       /\ out <> [] /\ matches_scram_pattern out = true.
Proof.
  assert (Hpw : str_encode_utf8 [] = Ok []) by reflexivity.
  assert (Hlen : Z.of_nat (length (@nil byte)) <= INT_MAX) by discriminate.
  assert (Hs : forall s, Some zero_salt = Some s -> length s = 16%nat)
    by (intros s E; injection E as <-; reflexivity).
  assert (Hit : 1 <= 1 <= INT_MAX) by (split; discriminate).
  split; [exact Hpw|]. split; [exact Hlen|]. split; [exact Hs|].
  split; [exact Hit|].
  exact (encodable_call_returns [] [] (Some zero_salt) 1 quiet_world
           Hpw Hlen Hs Hit).
Defined.

(** C7, as the spec words it, fails twice over. A [str] that holds a lone
    surrogate is a password the call cannot encode, and
    [password.encode('utf-8')] raises; and a positive count above [INT_MAX]
    is one the library refuses. *)
Lemma wellformed_calls_that_raise :
  (forallb is_code_point [0xd800%N] = true
   /\ length zero_salt = 16%nat /\ 0 < 1
   /\ generate_scram_sha256_hash [0xd800%N] (Some zero_salt) 1 quiet_world
      = (Raise UnicodeEncodeError, quiet_world))
  /\ (length zero_salt = 16%nat /\ 0 < 2 ^ 31
      /\ generate_scram_sha256_hash [] (Some zero_salt) (2 ^ 31) quiet_world
         = (Raise OverflowError, quiet_world)).
Proof. repeat split. Qed.

(** C10, as the code has it. The function itself never checks the length
    of a supplied salt: for a salt of any length up to [INT_MAX] bytes (the
    empty one and lengths other than 16 included), a count from 1 to
    [INT_MAX] and a password that UTF-8 encodes to at most [INT_MAX] bytes,
    the call raises nothing, and the salt segment of the string it returns
    decodes to the supplied salt. *)
Theorem salt_length_is_unchecked
    (pw : str) (pwb salt : bytes) (it : Z) (w : world) :
  str_encode_utf8 pw = Ok pwb ->
  Z.of_nat (length pwb) <= INT_MAX ->
  Z.of_nat (length salt) <= INT_MAX ->
  1 <= it <= INT_MAX ->
  exists (out : str) (g : segments),
    generate_scram_sha256_hash pw (Some salt) it w = (Ok out, w)
    /\ parse_scram out = Some g
    /\ b64decode (seg_salt g) = Some salt.
Proof.
  intros Hb Hp Hs Hit.
  exists (scram_format it (derived_frame pwb salt it)). eexists.
  split; [apply hash_supplied_returns; [exact Hb | repeat split; lia]|].
  split; [apply scram_format_parses; lia|].
  cbn [seg_salt]. apply b64decode_b64.
Qed.

Lemma salt_length_is_unchecked_witness :
  str_encode_utf8 (lit "pw") = Ok (blit "pw")
  /\ Z.of_nat (length (blit "pw")) <= INT_MAX
  /\ Z.of_nat (length (blit "abc")) <= INT_MAX
  /\ 1 <= 1 <= INT_MAX
  /\ length (blit "abc") <> 16%nat
  /\ exists (out : str) (g : segments),
       generate_scram_sha256_hash (lit "pw") (Some (blit "abc")) 1 quiet_world
       = (Ok out, quiet_world)
       /\ parse_scram out = Some g
       /\ b64decode (seg_salt g) = Some (blit "abc").
Proof.
  assert (Hpw : str_encode_utf8 (lit "pw") = Ok (blit "pw")) by reflexivity.
  assert (Hp : Z.of_nat (length (blit "pw")) <= INT_MAX) by discriminate.
  assert (Hs : Z.of_nat (length (blit "abc")) <= INT_MAX) by discriminate.
  assert (Hit : 1 <= 1 <= INT_MAX) by (split; discriminate).
  split; [exact Hpw|]. split; [exact Hp|]. split; [exact Hs|].
  split; [exact Hit|]. split; [discriminate|].
  exact (salt_length_is_unchecked (lit "pw") (blit "pw") (blit "abc") 1
           quiet_world Hpw Hp Hs Hit).
Defined.

(** C10, as the spec words it, fails: with a salt of three bytes and a
    password of two, a positive count above [INT_MAX] makes the call
    raise. *)
Lemma positive_count_can_raise :
  0 < 2 ^ 31
  /\ generate_scram_sha256_hash (lit "pw") (Some (blit "abc")) (2 ^ 31) quiet_world
     = (Raise OverflowError, quiet_world).
Proof. repeat split. Qed.

(** ** [main] *)

Lemma for_each_print (ls : list str) (w : world) :
  for_each ls print w = (Ok tt, World (entropy w) (stdout w ++ ls)).
Proof.
  revert w. induction ls as [|l ls IH]; intros w.
  - simpl. unfold ret. rewrite app_nil_r. destruct w; reflexivity.
  - cbn [for_each]. unfold bind. cbn [print]. rewrite IH. cbn [entropy stdout].
    rewrite <- app_assoc. reflexivity.
Qed.

Lemma hash_omitted_returns (pw : str) (pwb : bytes) (it : Z) (w : world) :
  str_encode_utf8 pw = Ok pwb ->
  Z.of_nat (length pwb) <= INT_MAX -> 1 <= it <= INT_MAX ->
  generate_scram_sha256_hash pw None it w
  = (Ok (scram_format it (derived_frame pwb (map (entropy w) (seq 0 16)) it)),
     World (fun i => entropy w (16 + i)%nat) (stdout w)).
Proof.
  intros Hpw Hlen Hit. rewrite hash_of_frame, frame_omitted, <- hash_of_frame.
  apply hash_supplied_returns; [exact Hpw|].
  unfold accepted. rewrite length_map, length_seq.
  repeat split; try lia. discriminate.
Qed.

Lemma scram_format_no_quote (pwb salt : bytes) (it : Z) :
  0 < it -> no_quote (scram_format it (derived_frame pwb salt it)) = true.
Proof.
  intros Hit. unfold no_quote, scram_format.
  cbn [derived_frame salt_b64 stored_key_b64 server_key_b64].
  assert (Hb : forall x, forallb (fun c => negb (c =? 34)%N) (b64 x) = true).
  { intros x. generalize (b64encode_text x). apply forallb_impl.
    intros c Hc. apply negb_true_iff, N.eqb_neq. intros ->. discriminate Hc. }
  assert (Hd : forallb (fun c => negb (c =? 34)%N) (int_str it) = true).
  { pose proof (int_str_digits it Hit) as H. unfold is_digits in H.
    apply andb_true_iff in H. destruct H as [_ H]. revert H.
    apply forallb_impl. intros c Hc.
    apply negb_true_iff, N.eqb_neq. intros ->. discriminate Hc. }
  rewrite !forallb_app, !Hb, Hd. reflexivity.
Qed.

Lemma map_seq_shift {A} (e : nat -> A) (n a m : nat) :
  map (fun i => e (n + i)%nat) (seq a m) = map e (seq (n + a) m).
Proof.
  revert a. induction m as [|m IH]; intros a; [reflexivity|].
  cbn [seq map]. rewrite IH, Nat.add_succ_r. reflexivity.
Qed.

Lemma encodes_short_spec (p : str) :
  encodes_short p = true ->
  exists pwb, str_encode_utf8 p = Ok pwb /\ Z.of_nat (length pwb) <= INT_MAX.
Proof.
  unfold encodes_short. destruct (str_encode_utf8 p) as [pwb|e]; [|discriminate].
  intros H. exists pwb. split; [reflexivity | apply Z.leb_le; exact H].
Qed.

Lemma default_iterations_accepted : 1 <= default_iterations <= INT_MAX.
Proof. split; discriminate. Qed.

(** The loop gives the k-th user the k-th block of 16 bytes of the random
    source as salt. *)
Lemma user_loop_salts (us : list (str * str)) :
  Forall (fun up => encodes_short (snd up) = true) us ->
  forall w, exists (hs : list str) (w' : world),
    for_each us print_user w = (Ok tt, w')
    /\ stdout w' = stdout w ++ user_lines us hs
    /\ length hs = length us
    /\ (forall i, entropy w' i = entropy w (16 * length us + i)%nat)
    /\ (forall k u p h,
          nth_error us k = Some (u, p) -> nth_error hs k = Some h ->
          exists pwb,
            str_encode_utf8 p = Ok pwb
            /\ Z.of_nat (length pwb) <= INT_MAX
            /\ h = scram_format default_iterations
                     (derived_frame pwb (map (entropy w) (seq (16 * k) 16))
                        default_iterations)).
Proof.
  induction 1 as [|up us Hup Hus IH]; intros w.
  - exists [], w. split; [reflexivity|]. split; [cbn; rewrite app_nil_r; reflexivity|].
    split; [reflexivity|]. split; [intros i; reflexivity|].
    intros k u p h Hk. destruct k; discriminate Hk.
  - destruct up as [u0 p0]. cbn [snd] in Hup.
    destruct (encodes_short_spec _ Hup) as (pwb & Hpw & Hlenp).
    pose proof (hash_omitted_returns p0 pwb default_iterations w Hpw Hlenp
                  default_iterations_accepted) as Hh.
    set (h0 := scram_format default_iterations
                 (derived_frame pwb (map (entropy w) (seq 0 16)) default_iterations)) in *.
    set (w1 := World (fun i => entropy w (16 + i)%nat)
                     (stdout w ++ [credential_line u0 h0])).
    destruct (IH w1) as (hs & w' & Hrun & Hout & Hlen & Hent & Hsalt).
    exists (h0 :: hs), w'. split.
    { cbn [for_each]. unfold bind at 1. unfold print_user at 1.
      unfold bind at 1. cbn [fst snd]. rewrite Hh. cbn [print]. exact Hrun. }
    split.
    { rewrite Hout. subst w1. cbn [stdout]. unfold user_lines.
      cbn [combine map fst snd]. rewrite <- app_assoc. reflexivity. }
    split; [cbn [length]; congruence|].
    split.
    { intros i. rewrite Hent. subst w1. cbn [entropy length].
      f_equal. lia. }
    intros k u p h Hk Hh'. destruct k as [|k].
    + cbn [nth_error] in Hk, Hh'. exists pwb.
      assert (p = p0) by congruence. assert (h = h0) by congruence.
      subst p h. split; [exact Hpw|]. split; [exact Hlenp | reflexivity].
    + cbn [nth_error] in Hk, Hh'.
      destruct (Hsalt k u p h Hk Hh') as (pwb' & Hpw' & Hlen' & ->).
      exists pwb'. split; [exact Hpw'|]. split; [exact Hlen'|].
      subst w1. cbn [entropy]. rewrite map_seq_shift.
      replace (16 + 16 * k)%nat with (16 * S k)%nat by lia. reflexivity.
Qed.

Lemma users_encodable :
  Forall (fun up => encodes_short (snd up) = true) users.
Proof. repeat constructor. Qed.

Lemma main_runs (w : world) :
  exists (w' : world) (hs : list str),
    main w = (Ok tt, w')
    /\ stdout w' = stdout w ++ header ++ user_lines users hs ++ footer
    /\ length hs = length users
    /\ (forall i, entropy w' i = entropy w (64 + i)%nat)
    /\ (forall k u p h,
          nth_error users k = Some (u, p) -> nth_error hs k = Some h ->
          exists pwb,
            str_encode_utf8 p = Ok pwb
            /\ Z.of_nat (length pwb) <= INT_MAX
            /\ h = scram_format default_iterations
                     (derived_frame pwb (map (entropy w) (seq (16 * k) 16))
                        default_iterations)).
Proof.
  unfold main, bind. rewrite for_each_print.
  destruct (user_loop_salts users users_encodable
              (World (entropy w) (stdout w ++ header)))
    as (hs & w2 & Hrun & Hout & Hlen & Hent & Hsalt).
  rewrite Hrun, for_each_print.
  exists (World (entropy w2) (stdout w2 ++ footer)), hs.
  split; [reflexivity|]. split.
  { cbn [stdout]. rewrite Hout. cbn [stdout]. rewrite <- !app_assoc. reflexivity. }
  split; [exact Hlen|]. split.
  { intros i. cbn [entropy]. rewrite Hent. reflexivity. }
  exact Hsalt.
Qed.

(** The hash of the k-th line is the one the function returns on the
    user's password, the k-th block of the random source and the default
    count. *)
Lemma derived_hash_is_returned (p : str) (pwb salt : bytes) (w0 : world) :
  str_encode_utf8 p = Ok pwb -> Z.of_nat (length pwb) <= INT_MAX ->
  length salt = 16%nat ->
  generate_scram_sha256_hash p (Some salt) default_iterations w0
  = (Ok (scram_format default_iterations
           (derived_frame pwb salt default_iterations)), w0).
Proof.
  intros Hpw Hlen Hs. apply hash_supplied_returns; [exact Hpw|].
  unfold accepted. rewrite Hs.
  pose proof default_iterations_accepted. repeat split; try lia. discriminate.
Qed.

Lemma credential_line_self (u h : str) :
  matches_scram_pattern h = true -> no_quote h = true ->
  is_credential_line u (credential_line u h) = true.
Proof.
  intros Hm Hq. unfold is_credential_line, credential_line.
  replace (dquote ++ u ++ dquote ++ lit " " ++ dquote ++ h ++ dquote)
    with ((dquote ++ u ++ dquote ++ lit " " ++ dquote) ++ h ++ dquote)
    by (rewrite <- !app_assoc; reflexivity).
  rewrite strip_prefix_app.
  change (h ++ dquote) with (h ++ 34%N :: []).
  rewrite split_at_app by exact Hq. exact Hm.
Qed.

Lemma filter_one {A} (f : A -> bool) (l1 : list A) (x : A) (l2 : list A) :
  forallb (fun y => negb (f y)) l1 = true -> f x = true ->
  forallb (fun y => negb (f y)) l2 = true ->
  filter f (l1 ++ x :: l2) = [x].
Proof.
  intros H1 Hx H2.
  assert (E : forall l, forallb (fun y => negb (f y)) l = true -> filter f l = []).
  { induction l as [|y l IH]; simpl; intros H; [reflexivity|].
    apply andb_true_iff in H. destruct H as [Hy Hl].
    apply negb_true_iff in Hy. rewrite Hy. auto. }
  rewrite filter_app. cbn [filter]. rewrite Hx, (E l1 H1), (E l2 H2). reflexivity.
Qed.

(** Among the lines printed for four hashes, exactly one is the credential
    line of each user: the one at the user's place in the table. *)
Lemma one_line_per_user (h1 h2 h3 h4 : str) :
  Forall (fun h => matches_scram_pattern h = true /\ no_quote h = true)
    [h1; h2; h3; h4] ->
  forall u p, In (u, p) users ->
  exists k h,
    nth_error users k = Some (u, p) /\ nth_error [h1; h2; h3; h4] k = Some h
    /\ filter (is_credential_line u)
         (header ++ user_lines users [h1; h2; h3; h4] ++ footer)
       = [credential_line u h].
Proof.
  intros Hgood u p Hin.
  inversion_clear Hgood as [|? ? [Hm1 Hq1] Hgood2].
  inversion_clear Hgood2 as [|? ? [Hm2 Hq2] Hgood3].
  inversion_clear Hgood3 as [|? ? [Hm3 Hq3] Hgood4].
  inversion_clear Hgood4 as [|? ? [Hm4 Hq4] _].
  destruct Hin as [E|[E|[E|[E|[]]]]]; injection E as <- <-.
  - exists 0%nat, h1. split; [reflexivity|]. split; [reflexivity|].
    apply (filter_one _ header _
             ([credential_line (lit "app_readonly") h2;
               credential_line (lit "pgbouncer_admin") h3;
               credential_line (lit "pgbouncer_monitor") h4] ++ footer)).
    + vm_compute; reflexivity.
    + apply credential_line_self; assumption.
    + vm_compute; reflexivity.
  - exists 1%nat, h2. split; [reflexivity|]. split; [reflexivity|].
    apply (filter_one _ (header ++ [credential_line (lit "app_readwrite") h1]) _
             ([credential_line (lit "pgbouncer_admin") h3;
               credential_line (lit "pgbouncer_monitor") h4] ++ footer)).
    + vm_compute; reflexivity.
    + apply credential_line_self; assumption.
    + vm_compute; reflexivity.
  - exists 2%nat, h3. split; [reflexivity|]. split; [reflexivity|].
    apply (filter_one _ (header ++ [credential_line (lit "app_readwrite") h1;
                                    credential_line (lit "app_readonly") h2]) _
             ([credential_line (lit "pgbouncer_monitor") h4] ++ footer)).
    + vm_compute; reflexivity.
    + apply credential_line_self; assumption.
    + vm_compute; reflexivity.
  - exists 3%nat, h4. split; [reflexivity|]. split; [reflexivity|].
    apply (filter_one _ (header ++ [credential_line (lit "app_readwrite") h1;
                                    credential_line (lit "app_readonly") h2;
                                    credential_line (lit "pgbouncer_admin") h3]) _
             footer).
    + vm_compute; reflexivity.
    + apply credential_line_self; assumption.
    + vm_compute; reflexivity.
Qed.

(** C8. [main] runs to its end and, for every entry (username, password)
    of the user table, prints exactly one line that reads
    ["<username>" "<hash>"]: the username in double quotes, one space, and
    in double quotes the hash that [generate_scram_sha256_hash] returns for
    that entry's password, 16 bytes drawn from the random source as salt
    and the default 4096 iterations, a string of the SCRAM-SHA-256
    pattern. *)
Theorem main_prints_one_line_per_user (w : world) :
  exists (w' : world) (printed : list str),
    main w = (Ok tt, w')
    /\ stdout w' = stdout w ++ printed
    /\ forall u p, In (u, p) users ->
       exists (k : nat) (h : str),
         nth_error users k = Some (u, p)
         /\ (forall w0,
               generate_scram_sha256_hash p
                 (Some (map (entropy w) (seq (16 * k) 16)))
                 default_iterations w0
               = (Ok h, w0))
         /\ matches_scram_pattern h = true
         /\ filter (is_credential_line u) printed
            = [dquote ++ u ++ dquote ++ lit " " ++ dquote ++ h ++ dquote].
Proof.
  destruct (main_runs w) as (w' & hs & Hrun & Hout & Hlen & _ & Hsalt).
  destruct hs as [|h1 [|h2 [|h3 [|h4 [|h5 hs]]]]]; try discriminate Hlen.
  exists w', (header ++ user_lines users [h1; h2; h3; h4] ++ footer).
  split; [exact Hrun|]. split; [exact Hout|].
  assert (Hgood : Forall (fun h => matches_scram_pattern h = true
                                   /\ no_quote h = true) [h1; h2; h3; h4]).
  { assert (Hk : forall k u p h,
               nth_error users k = Some (u, p) ->
               nth_error [h1; h2; h3; h4] k = Some h ->
               matches_scram_pattern h = true /\ no_quote h = true).
    { intros k u p h Hu Hh. destruct (Hsalt k u p h Hu Hh) as (pwb & _ & _ & ->).
      split; [apply scram_format_matches | apply scram_format_no_quote];
        reflexivity. }
    repeat constructor.
    - exact (proj1 (Hk 0%nat _ _ _ eq_refl eq_refl)).
    - exact (proj2 (Hk 0%nat _ _ _ eq_refl eq_refl)).
    - exact (proj1 (Hk 1%nat _ _ _ eq_refl eq_refl)).
    - exact (proj2 (Hk 1%nat _ _ _ eq_refl eq_refl)).
    - exact (proj1 (Hk 2%nat _ _ _ eq_refl eq_refl)).
    - exact (proj2 (Hk 2%nat _ _ _ eq_refl eq_refl)).
    - exact (proj1 (Hk 3%nat _ _ _ eq_refl eq_refl)).
    - exact (proj2 (Hk 3%nat _ _ _ eq_refl eq_refl)). }
  intros u p Hin.
  destruct (one_line_per_user h1 h2 h3 h4 Hgood u p Hin) as (k & h & Hu & Hh & Hf).
  exists k, h. split; [exact Hu|].
  destruct (Hsalt k u p h Hu Hh) as (pwb & Hpw & Hlenp & E).
  split.
  { intros w0. rewrite E. apply derived_hash_is_returned; [exact Hpw | exact Hlenp|].
    rewrite length_map, length_seq. reflexivity. }
  split; [|exact Hf].
  rewrite Forall_forall in Hgood.
  exact (proj1 (Hgood h (nth_error_In _ _ Hh))).
Qed.

(** On the example, one iteration and two give different stored keys and
    different server keys. *)
Example example_counts_change_both_keys :
  exists g1 g2 : segments,
    parse_scram example_hash = Some g1 /\ parse_scram example_hash_2 = Some g2
    /\ seg_stored_key g1 <> seg_stored_key g2
    /\ seg_server_key g1 <> seg_server_key g2.
Proof.
  eexists. eexists. split; [reflexivity|]. split; [reflexivity|].
  split; discriminate.
Qed.

(** ** Known answers of the primitives *)

Example sha256_abc :
  hashlib_sha256 (blit "abc")
  = map byte_of_Z
      [0xba; 0x78; 0x16; 0xbf; 0x8f; 0x01; 0xcf; 0xea;
       0x41; 0x41; 0x40; 0xde; 0x5d; 0xae; 0x22; 0x23;
       0xb0; 0x03; 0x61; 0xa3; 0x96; 0x17; 0x7a; 0x9c;
       0xb4; 0x10; 0xff; 0x61; 0xf2; 0x00; 0x15; 0xad].
Proof. vm_compute. reflexivity. Qed.

Example b64encode_foobar :
  b64 (blit "foobar") = lit "Zm9vYmFy" /\ b64 (blit "fooba") = lit "Zm9vYmE="
  /\ b64 (blit "foob") = lit "Zm9vYg==".
Proof. repeat split. Qed.

Example utf8_euro : str_encode_utf8 [0x20ac%N] = Ok (map byte_of_Z [0xe2; 0x82; 0xac]).
Proof. reflexivity. Qed.

(** * Further properties of the script *)

(** ** Which calls raise, and what *)

Lemma scalar_value_cases (c : N) :
  is_scalar_value c = is_code_point c && negb (is_surrogate c).
Proof.
  unfold is_scalar_value, is_code_point, is_surrogate.
  destruct (N.ltb_spec c 0xd800), (N.leb_spec 0xe000 c),
    (N.ltb_spec c 0x110000), (N.leb_spec 0xd800 c), (N.ltb_spec c 0xe000);
    try reflexivity; lia.
Qed.

Lemma utf8_code_point_some (c : N) (bs : bytes) :
  utf8_code_point c = Some bs -> is_scalar_value c = true.
Proof.
  unfold utf8_code_point, is_scalar_value.
  destruct (Z.ltb_spec (Z.of_N c) 0x80).
  { intros _. apply orb_true_iff. left. apply N.ltb_lt. lia. }
  destruct (Z.ltb_spec (Z.of_N c) 0x800).
  { intros _. apply orb_true_iff. left. apply N.ltb_lt. lia. }
  destruct (Z.leb_spec 0xd800 (Z.of_N c)), (Z.ltb_spec (Z.of_N c) 0xe000);
    cbn [andb]; try discriminate.
  - destruct (Z.ltb_spec (Z.of_N c) 0x10000).
    { intros _. apply orb_true_iff. right. apply andb_true_iff.
      split; [apply N.leb_le | apply N.ltb_lt]; lia. }
    destruct (Z.ltb_spec (Z.of_N c) 0x110000); [|discriminate].
    intros _. apply orb_true_iff. right. apply andb_true_iff.
    split; [apply N.leb_le | apply N.ltb_lt]; lia.
  - intros _. apply orb_true_iff. left. apply N.ltb_lt. lia.
  - lia.
Qed.

Lemma str_encode_utf8_ok (s : str) (bs : bytes) :
  str_encode_utf8 s = Ok bs -> forallb is_scalar_value s = true.
Proof.
  revert bs. induction s as [|c s IH]; intros bs; [reflexivity|].
  cbn [str_encode_utf8 forallb].
  destruct (utf8_code_point c) as [hd|] eqn:E; [|discriminate].
  destruct (str_encode_utf8 s) as [tl|e]; [|discriminate].
  intros _. rewrite (utf8_code_point_some c hd E), (IH tl eq_refl). reflexivity.
Qed.

Lemma str_encode_utf8_error (s : str) (e : exn) :
  str_encode_utf8 s = Raise e -> e = UnicodeEncodeError.
Proof.
  induction s as [|c s IH]; cbn [str_encode_utf8]; [discriminate|].
  destruct (utf8_code_point c); [|congruence].
  destruct (str_encode_utf8 s); [discriminate|].
  intros H. apply IH. congruence.
Qed.

Lemma scalar_values_iff (s : str) :
  forallb is_code_point s = true ->
  forallb is_scalar_value s = negb (existsb is_surrogate s).
Proof.
  induction s as [|c s IH]; [reflexivity|].
  cbn [forallb existsb]. intros H. apply andb_true_iff in H.
  destruct H as [Hc Hs]. rewrite (IH Hs), scalar_value_cases, Hc.
  destruct (is_surrogate c); reflexivity.
Qed.

(** X1. A call with a supplied salt has its outcome decided by the
    password, the salt's length and the count, in this order. A password
    that holds a surrogate raises [UnicodeEncodeError], whatever the rest.
    Otherwise the password has an encoding, and: an encoding or a salt of
    more than [INT_MAX] bytes, a count below [LONG_MIN] or a count above
    [INT_MAX] raises [OverflowError]; failing that, a count below one
    raises [ValueError]; failing that, the call returns a string. The
    world is the same after every one of them. *)
Theorem call_outcome_by_cases (pw : str) (salt : bytes) (it : Z) (w : world) :
  forallb is_code_point pw = true ->
  (existsb is_surrogate pw = true ->
   generate_scram_sha256_hash pw (Some salt) it w
   = (Raise UnicodeEncodeError, w))
  /\ (existsb is_surrogate pw = false ->
      exists pwb,
        str_encode_utf8 pw = Ok pwb
        /\ (INT_MAX < Z.of_nat (length pwb) \/ INT_MAX < Z.of_nat (length salt)
            \/ it < LONG_MIN \/ INT_MAX < it ->
            generate_scram_sha256_hash pw (Some salt) it w
            = (Raise OverflowError, w))
        /\ (Z.of_nat (length pwb) <= INT_MAX ->
            Z.of_nat (length salt) <= INT_MAX ->
            LONG_MIN <= it < 1 ->
            generate_scram_sha256_hash pw (Some salt) it w
            = (Raise ValueError, w))
        /\ (Z.of_nat (length pwb) <= INT_MAX ->
            Z.of_nat (length salt) <= INT_MAX ->
            1 <= it <= INT_MAX ->
            exists out,
              generate_scram_sha256_hash pw (Some salt) it w = (Ok out, w))).
Proof.
  intros Hcp. pose proof (scalar_values_iff pw Hcp) as Hsc.
  rewrite hash_of_frame, frame_supplied.
  destruct (str_encode_utf8 pw) as [pwb|e] eqn:E.
  - apply str_encode_utf8_ok in E. rewrite E in Hsc.
    assert (Hno : existsb is_surrogate pw = false)
      by (destruct (existsb is_surrogate pw); [discriminate Hsc | reflexivity]).
    split; [rewrite Hno; discriminate|].
    intros _. exists pwb. split; [reflexivity|].
    destruct (pbkdf2_raises pwb salt it) as [Hov Hval].
    split; [|split].
    + intros H. rewrite (Hov H). reflexivity.
    + intros Hp Hs Hit. rewrite (Hval Hp Hs Hit). reflexivity.
    + intros Hp Hs Hit.
      rewrite pbkdf2_returns by (repeat split; lia). eauto.
  - pose proof (str_encode_utf8_error pw e E) as ->.
    assert (Hyes : existsb is_surrogate pw = true).
    { destruct (existsb is_surrogate pw); [reflexivity|].
      destruct (str_encode_utf8_scalar pw Hsc) as [bs Hbs]. congruence. }
    split; [reflexivity|]. rewrite Hyes. discriminate.
Qed.

Lemma call_outcome_by_cases_witness :
  forallb is_code_point [0xdc80%N] = true
  /\ existsb is_surrogate [0xdc80%N] = true
  /\ generate_scram_sha256_hash [0xdc80%N] (Some zero_salt) 0 quiet_world
     = (Raise UnicodeEncodeError, quiet_world).
Proof.
  assert (Hcp : forallb is_code_point [0xdc80%N] = true) by reflexivity.
  assert (Hs : existsb is_surrogate [0xdc80%N] = true) by reflexivity.
  split; [exact Hcp|]. split; [exact Hs|].
  exact (proj1 (call_outcome_by_cases [0xdc80%N] zero_salt 0 quiet_world Hcp) Hs).
Defined.

(** X2. Whatever the arguments, a call raises nothing but
    [UnicodeEncodeError], [ValueError] or [OverflowError]: the three
    [decode('ascii')] of base64 text never fail. *)
Theorem raises_only_three_exceptions
    (pw : str) (salt : option bytes) (it : Z) (w w' : world) (e : exn) :
  generate_scram_sha256_hash pw salt it w = (Raise e, w') ->
  e = UnicodeEncodeError \/ e = ValueError \/ e = OverflowError.
Proof.
  rewrite hash_of_frame.
  assert (H : forall s w0 w1,
             generate_scram_sha256_hash_frame pw (Some s) it w0 = (Raise e, w1) ->
             e = UnicodeEncodeError \/ e = ValueError \/ e = OverflowError).
  { intros s w0 w1. rewrite frame_supplied.
    destruct (str_encode_utf8 pw) as [pwb|e0] eqn:E.
    - destruct (hashlib_pbkdf2_hmac_sha256 pwb s it) as [sp|e1] eqn:E1;
        [discriminate|].
      apply pbkdf2_error in E1. intros H. right.
      assert (e1 = e) by congruence. subst e1. exact E1.
    - apply str_encode_utf8_error in E. intros H. left. congruence. }
  destruct (generate_scram_sha256_hash_frame pw salt it w) as [[fr|e0] w1] eqn:E;
    [discriminate|].
  intros H0. assert (e0 = e) by congruence. subst e0.
  destruct salt as [s|].
  - exact (H _ _ _ E).
  - rewrite frame_omitted in E. exact (H _ _ _ E).
Qed.

Lemma raises_only_three_exceptions_witness :
  generate_scram_sha256_hash [] None (2 ^ 31) quiet_world
  = (Raise OverflowError, quiet_world)
  /\ (OverflowError = UnicodeEncodeError \/ OverflowError = ValueError
      \/ OverflowError = OverflowError).
Proof.
  assert (H : generate_scram_sha256_hash [] None (2 ^ 31) quiet_world
              = (Raise OverflowError, quiet_world)) by reflexivity.
  split; [exact H|].
  exact (raises_only_three_exceptions [] None (2 ^ 31) quiet_world quiet_world
           OverflowError H).
Defined.

(** X3. With the salt omitted a call takes its 16 bytes from the random
    source before anything can fail: whether it returns or raises, the
    source has moved on by exactly 16 bytes, and nothing was printed. *)
Theorem omitted_salt_always_consumes_16_bytes (pw : str) (it : Z) (w : world) :
  snd (generate_scram_sha256_hash pw None it w)
  = World (fun i => entropy w (16 + i)%nat) (stdout w).
Proof.
  rewrite hash_of_frame, frame_omitted, frame_supplied.
  destruct (str_encode_utf8 pw) as [pwb|e];
    [destruct (hashlib_pbkdf2_hmac_sha256 pwb (map (entropy w) (seq 0 16)) it)|];
    reflexivity.
Qed.

(** ** The size of a credential string, and reading it back *)

Lemma length_b64encode (s : bytes) :
  length (b64encode s) = (4 * ((length s + 2) / 3))%nat.
Proof.
  induction s as [|a|a b|a b c rest IH] using list_ind3; try reflexivity.
  cbn [b64encode length]. rewrite IH.
  replace (S (S (S (length rest))) + 2)%nat with (1 * 3 + (length rest + 2))%nat
    by lia.
  rewrite Nat.div_add_l by discriminate. lia.
Qed.

Lemma length_b64 (s : bytes) : length (b64 s) = (4 * ((length s + 2) / 3))%nat.
Proof. unfold b64. rewrite length_map. apply length_b64encode. Qed.

Lemma int_of_str_int_str (n : Z) : 0 < n -> int_of_str (int_str n) = Some n.
Proof.
  intros Hn. unfold int_of_str, int_str, lit. rewrite map_map.
  rewrite (map_ext _ (fun a => a)) by (intros a; apply ascii_N_embedding).
  rewrite map_id, string_of_list_ascii_of_string.
  destruct n as [|p|p]; try lia.
  rewrite NilZero.isi.
  - cbn [option_map]. rewrite DecimalZ.of_to. reflexivity.
  - cbn [Z.to_int]. intros E. injection E as E.
    exact (Unsigned.to_uint_nonnil p E).
  - discriminate.
Qed.

Lemma read_parameters_derived (pwb salt : bytes) (it : Z) :
  0 < it ->
  read_parameters (scram_format it (derived_frame pwb salt it)) = Some (it, salt).
Proof.
  intros Hit. unfold read_parameters.
  rewrite scram_format_parses by exact Hit.
  cbn [seg_iterations seg_salt].
  rewrite int_of_str_int_str by exact Hit. rewrite b64decode_b64. reflexivity.
Qed.

(** X4. The length of a returned string is fixed by the count and the
    length of the salt: 105 characters, the decimal digits of the count,
    and four characters for every three bytes of salt, rounded up (24 for
    the 16 bytes drawn when the salt is omitted). *)
Theorem output_length
    (pw : str) (salt : option bytes) (it : Z) (w w' : world) (out : str) :
  generate_scram_sha256_hash pw salt it w = (Ok out, w') ->
  length out
  = (105 + length (int_str it)
     + 4 * ((match salt with Some s => length s | None => 16 end + 2) / 3))%nat.
Proof.
  intros H. apply hash_returns_derived in H.
  destruct H as (pwb & s & _ & _ & -> & Hs).
  assert (Hlen : length s = match salt with Some s' => length s' | None => 16%nat end).
  { destruct salt as [s'|].
    - destruct Hs as [-> _]. reflexivity.
    - exact (token_bytes_length _ _ _ _ Hs). }
  rewrite <- Hlen. unfold scram_format.
  cbn [derived_frame salt_b64 stored_key_b64 server_key_b64].
  rewrite !length_app, !length_b64, sha256_length, hmac_sha256_length.
  change (length (lit "SCRAM-SHA-256$")) with 14%nat.
  change (length (lit ":")) with 1%nat. change (length (lit "$")) with 1%nat.
  change ((32 + 2) / 3)%nat with 11%nat. lia.
Qed.

Lemma output_length_witness :
  generate_scram_sha256_hash [] (Some zero_salt) 1 quiet_world
  = (Ok example_hash, quiet_world)
  /\ length example_hash = 130%nat.
Proof.
  assert (H : generate_scram_sha256_hash [] (Some zero_salt) 1 quiet_world
              = (Ok example_hash, quiet_world)) by (vm_compute; reflexivity).
  split; [exact H|].
  exact (output_length [] (Some zero_salt) 1 quiet_world quiet_world
           example_hash H).
Defined.

(** X5. The parameters of a call can be read back from the string it
    returns: the text before the first colon is the count in decimal, and
    the text between that colon and the second dollar sign decodes to the
    salt that was used. *)
Theorem parameters_read_back
    (pw : str) (salt : option bytes) (it : Z) (w w' : world) (out : str) :
  generate_scram_sha256_hash pw salt it w = (Ok out, w') ->
  exists s : bytes,
    read_parameters out = Some (it, s)
    /\ match salt with
       | Some s' => s = s'
       | None => secrets_token_bytes 16 w = (Ok s, w')
       end.
Proof.
  intros H. apply hash_returns_derived in H.
  destruct H as (pwb & s & _ & Hit & -> & Hs).
  exists s. split; [apply read_parameters_derived; lia|].
  destruct salt as [s'|]; [apply Hs | exact Hs].
Qed.

Lemma parameters_read_back_witness :
  generate_scram_sha256_hash [] (Some zero_salt) 2 quiet_world
  = (Ok example_hash_2, quiet_world)
  /\ exists s : bytes,
       read_parameters example_hash_2 = Some (2, s) /\ s = zero_salt.
Proof.
  assert (H : generate_scram_sha256_hash [] (Some zero_salt) 2 quiet_world
              = (Ok example_hash_2, quiet_world)) by (vm_compute; reflexivity).
  split; [exact H|].
  exact (parameters_read_back [] (Some zero_salt) 2 quiet_world quiet_world
           example_hash_2 H).
Defined.

(** X6. Two calls that return the same string were made with the same
    count and the same salt, whatever their passwords: no credential string
    stands for two different (count, salt) pairs. *)
Theorem output_determines_count_and_salt
    (pw1 pw2 : str) (salt1 salt2 : bytes) (it1 it2 : Z)
    (w1 w1' w2 w2' : world) (out : str) :
  generate_scram_sha256_hash pw1 (Some salt1) it1 w1 = (Ok out, w1') ->
  generate_scram_sha256_hash pw2 (Some salt2) it2 w2 = (Ok out, w2') ->
  it1 = it2 /\ salt1 = salt2.
Proof.
  intros H1 H2.
  apply hash_returns_derived in H1. apply hash_returns_derived in H2.
  destruct H1 as (pwb1 & s1 & _ & Hit1 & E1 & -> & _).
  destruct H2 as (pwb2 & s2 & _ & Hit2 & E2 & -> & _).
  pose proof (read_parameters_derived pwb1 salt1 it1 ltac:(lia)) as R1.
  pose proof (read_parameters_derived pwb2 salt2 it2 ltac:(lia)) as R2.
  rewrite <- E1 in R1. rewrite <- E2 in R2. rewrite R1 in R2.
  split; congruence.
Qed.

Lemma output_determines_count_and_salt_witness :
  generate_scram_sha256_hash [] (Some zero_salt) 1 quiet_world
  = (Ok example_hash, quiet_world)
  /\ generate_scram_sha256_hash [] (Some (repeat x00 16)) 1
       (World (fun _ => xff) [lit "x"])
     = (Ok example_hash, World (fun _ => xff) [lit "x"])
  /\ 1 = 1 /\ zero_salt = repeat x00 16.
Proof.
  assert (H1 : generate_scram_sha256_hash [] (Some zero_salt) 1 quiet_world
               = (Ok example_hash, quiet_world)) by (vm_compute; reflexivity).
  assert (H2 : generate_scram_sha256_hash [] (Some (repeat x00 16)) 1
                 (World (fun _ => xff) [lit "x"])
               = (Ok example_hash, World (fun _ => xff) [lit "x"]))
    by (vm_compute; reflexivity).
  split; [exact H1|]. split; [exact H2|].
  exact (output_determines_count_and_salt [] [] zero_salt (repeat x00 16) 1 1
           quiet_world quiet_world (World (fun _ => xff) [lit "x"])
           (World (fun _ => xff) [lit "x"]) example_hash H1 H2).
Defined.

(** ** The printed lines *)

Lemma parse_credential_line_format (u h : str) :
  no_quote u = true -> no_quote h = true ->
  parse_credential_line (credential_line u h) = Some (u, h).
Proof.
  intros Hu Hh. unfold parse_credential_line, credential_line.
  rewrite strip_prefix_app.
  change (u ++ dquote ++ lit " " ++ dquote ++ h ++ dquote)
    with (u ++ 34%N :: (lit " " ++ dquote) ++ h ++ dquote).
  rewrite split_at_app by exact Hu.
  rewrite strip_prefix_app.
  change (h ++ dquote) with (h ++ 34%N :: []).
  rewrite split_at_app by exact Hh. reflexivity.
Qed.

(** X7. A returned string never holds a double quote, so the line
    [main] formats from it reads back unambiguously: for a username without
    a double quote, splitting the line at its quotes gives the username and
    the hash again. *)
Theorem credential_line_reads_back
    (u pw : str) (salt : option bytes) (it : Z) (w w' : world) (out : str) :
  no_quote u = true ->
  generate_scram_sha256_hash pw salt it w = (Ok out, w') ->
  no_quote out = true
  /\ parse_credential_line (credential_line u out) = Some (u, out).
Proof.
  intros Hu H. apply hash_returns_derived in H.
  destruct H as (pwb & s & _ & Hit & -> & _).
  assert (Hq : no_quote (scram_format it (derived_frame pwb s it)) = true)
    by (apply scram_format_no_quote; lia).
  split; [exact Hq|]. apply parse_credential_line_format; assumption.
Qed.

Lemma credential_line_reads_back_witness :
  no_quote (lit "app_readwrite") = true
  /\ generate_scram_sha256_hash [] (Some zero_salt) 1 quiet_world
     = (Ok example_hash, quiet_world)
  /\ parse_credential_line (credential_line (lit "app_readwrite") example_hash)
     = Some (lit "app_readwrite", example_hash).
Proof.
  assert (Hu : no_quote (lit "app_readwrite") = true) by reflexivity.
  assert (H : generate_scram_sha256_hash [] (Some zero_salt) 1 quiet_world
              = (Ok example_hash, quiet_world)) by (vm_compute; reflexivity).
  split; [exact Hu|]. split; [exact H|].
  exact (proj2 (credential_line_reads_back (lit "app_readwrite") []
                  (Some zero_salt) 1 quiet_world quiet_world example_hash Hu H)).
Defined.

(** ** [main] and the random source *)

(** X8. [main] keeps what was printed before it and adds fourteen lines:
    four header lines, each empty or a [#] comment, then the credential
    lines of the four users in the order of the table, each with a hash
    that matches the pattern, then six footer lines, each empty or a [#]
    comment. *)
Theorem main_output_layout (w : world) :
  exists (w' : world) (h1 h2 h3 h4 : str),
    main w = (Ok tt, w')
    /\ stdout w'
       = stdout w ++ header
           ++ [credential_line (lit "app_readwrite") h1;
               credential_line (lit "app_readonly") h2;
               credential_line (lit "pgbouncer_admin") h3;
               credential_line (lit "pgbouncer_monitor") h4]
           ++ footer
    /\ Forall (fun h => matches_scram_pattern h = true) [h1; h2; h3; h4]
    /\ length header = 4%nat /\ length footer = 6%nat
    /\ forallb is_blank_or_comment (header ++ footer) = true.
Proof.
  destruct (main_runs w) as (w' & hs & Hrun & Hout & Hlen & _ & Hsalt).
  destruct hs as [|h1 [|h2 [|h3 [|h4 [|h5 hs]]]]]; try discriminate Hlen.
  exists w', h1, h2, h3, h4.
  split; [exact Hrun|]. split; [exact Hout|].
  split; [|repeat split].
  assert (Hm : forall k u p h,
             nth_error users k = Some (u, p) ->
             nth_error [h1; h2; h3; h4] k = Some h ->
             matches_scram_pattern h = true).
  { intros k u p h Hk Hh. destruct (Hsalt k u p h Hk Hh) as (pwb & _ & _ & ->).
    apply scram_format_matches. reflexivity. }
  repeat constructor.
  - exact (Hm 0%nat _ _ _ eq_refl eq_refl).
  - exact (Hm 1%nat _ _ _ eq_refl eq_refl).
  - exact (Hm 2%nat _ _ _ eq_refl eq_refl).
  - exact (Hm 3%nat _ _ _ eq_refl eq_refl).
Qed.

(** X9. [main] draws a fresh salt for each user: it reads 64 bytes of the
    random source in all, and the hash printed for the k-th user of the
    table is the one the function returns for that user's password, the
    k-th block of 16 of those bytes as salt, and 4096 iterations. *)
Theorem main_draws_a_salt_per_user (w : world) :
  exists (w' : world) (hs : list str),
    main w = (Ok tt, w')
    /\ stdout w' = stdout w ++ header ++ user_lines users hs ++ footer
    /\ length hs = length users
    /\ (forall i, entropy w' i = entropy w (64 + i)%nat)
    /\ (forall k u p h,
          nth_error users k = Some (u, p) -> nth_error hs k = Some h ->
          forall w0,
            generate_scram_sha256_hash p
              (Some (map (entropy w) (seq (16 * k) 16))) 4096 w0
            = (Ok h, w0)).
Proof.
  destruct (main_runs w) as (w' & hs & Hrun & Hout & Hlen & Hent & Hsalt).
  exists w', hs. repeat (split; [assumption|]).
  intros k u p h Hk Hh w0.
  destruct (Hsalt k u p h Hk Hh) as (pwb & Hpw & Hlenp & ->).
  apply derived_hash_is_returned; [exact Hpw | exact Hlenp|].
  rewrite length_map, length_seq. reflexivity.
Qed.
